(** * landauer_benchmark: the orchestration harness of [benchmark.py]

    A shallow embedding of [src/benchmark.py]: rule-based task selection
    ([check_rule], [apply_rules]), the two cache steps ([get_tree_data],
    [generate_entropy_data]), the task runner ([run]) and the driver
    ([main]).

    The Python runtime the script talks to is modelled explicitly:
    - [pathlib] paths as a record of an anchor flag and a list of
      components;
    - the file system as a finite map from paths to nodes;
    - raised [Exception]s as the left summand of a state-and-error monad
      ([BaseException]s that are not [Exception]s, such as
      [KeyboardInterrupt], are outside the model);
    - [timeit.default_timer] as a counter in the world read through an
      oracle, durations being integers (clock ticks);
    - the [landauer] package ([parse], [entropy]) as an interface. *)

From stdpp Require Import gmap strings list fin_maps sorting.
From Stdlib Require Import ZArith Ascii.

Local Open Scope string_scope.
Local Open Scope Z_scope.

(** ** pathlib *)

Module Pathlib.

Record PurePath := mkPath { anchored : bool; parts : list string }.

#[global] Instance PurePath_eq_dec : EqDecision PurePath.
Proof. solve_decision. Defined.

#[global] Instance PurePath_countable : Countable PurePath.
Proof.
  refine (inj_countable' (fun p => (anchored p, parts p))
                         (fun '(a, l) => mkPath a l) _).
  by intros [].
Defined.

(** Splitting a file name at every slash; [cur] is the component read so
    far. *)
Fixpoint split_slash (s cur : string) : list string :=
  match s with
  | EmptyString => [cur]
  | String c s' =>
      if Ascii.eqb c "/"%char then cur :: split_slash s' EmptyString
      else split_slash s' (cur +:+ String c EmptyString)
  end.

Definition keep_component (c : string) : bool :=
  negb (String.eqb c EmptyString) && negb (String.eqb c ".").

Definition starts_with_slash (s : string) : bool :=
  match s with
  | String c _ => Ascii.eqb c "/"%char
  | EmptyString => false
  end.

(** [Path(filename)] *)
Definition Path (filename : string) : PurePath :=
  mkPath (starts_with_slash filename)
         (List.filter keep_component (split_slash filename EmptyString)).

Definition is_absolute (p : PurePath) : bool := anchored p.

(** [a / b] *)
Definition joinpath (a b : PurePath) : PurePath :=
  if anchored b then b else mkPath (anchored a) (parts a ++ parts b).

(** [p.parent]; the parent of an anchor is the anchor itself. *)
Definition parent (p : PurePath) : PurePath :=
  mkPath (anchored p) (removelast (parts p)).

End Pathlib.
Export Pathlib.

(** ** Exceptions, the file system and the world *)

Inductive exn :=
| KeyError (key : string)
| AssertionError (msg : string)
| OSError (msg : string)
| LandauerError (msg : string).

(** [str(e)] as it appears in the log line of [run]. *)
Definition exn_str (e : exn) : string :=
  match e with
  | KeyError k => "'" +:+ k +:+ "'"
  | AssertionError m => m
  | OSError m => m
  | LandauerError m => m
  end.

Inductive node := File (content : string) | Dir.

Inductive level := INFO | ERROR.

Record world := mkWorld {
  fs : gmap PurePath node;
  clock : nat;
  log : list (level * string)
}.

Definition set_fs (f : gmap PurePath node) (w : world) : world :=
  mkWorld f (clock w) (log w).

(** What is found at a path: the anchors are directories. *)
Definition stat (f : gmap PurePath node) (p : PurePath) : option node :=
  match parts p with
  | [] => Some Dir
  | _ => f !! p
  end.

Definition is_file (w : world) (p : PurePath) : bool :=
  match stat (fs w) p with
  | Some (File _) => true
  | _ => false
  end.

(** [mkdir(parents = True, exist_ok = True)] walks the prefixes of the
    path from the anchor: a directory is kept, a missing component is
    created, a file in the way raises. *)
Fixpoint mkdirs (a : bool) (pre rest : list string)
    (f : gmap PurePath node) : exn + gmap PurePath node :=
  match rest with
  | [] => inr f
  | c :: rest' =>
      let p := mkPath a (pre ++ [c]) in
      match f !! p with
      | Some (File _) => inl (OSError "File exists")
      | Some Dir => mkdirs a (pre ++ [c]) rest' f
      | None => mkdirs a (pre ++ [c]) rest' (<[p := Dir]> f)
      end
  end.

Definition mkdir_parents (p : PurePath) (f : gmap PurePath node)
    : exn + gmap PurePath node :=
  mkdirs (anchored p) [] (parts p) f.

(** [open('w')]: the parent must be a directory and the target must not
    be one; the file is created or truncated at once. *)
Definition open_w (p : PurePath) (f : gmap PurePath node)
    : exn + gmap PurePath node :=
  match stat f (parent p), stat f p with
  | Some Dir, Some Dir => inl (OSError "Is a directory")
  | Some Dir, _ => inr (<[p := File EmptyString]> f)
  | _, _ => inl (OSError "No such file or directory")
  end.

(** [open()] followed by [read()]. *)
Definition read_text (p : PurePath) (f : gmap PurePath node) : exn + string :=
  match stat f p with
  | Some (File s) => inr s
  | Some Dir => inl (OSError "Is a directory")
  | None => inl (OSError "No such file or directory")
  end.

(** ** The state-and-error monad of the script *)

Definition M (A : Type) : Type := world → (exn + A) * world.

Definition ret {A} (x : A) : M A := fun w => (inr x, w).

Definition raise {A} (e : exn) : M A := fun w => (inl e, w).

Definition bind {A B} (m : M A) (k : A → M B) : M B :=
  fun w =>
    match m w with
    | (inr x, w') => k x w'
    | (inl e, w') => (inl e, w')
    end.

Declare Scope py_scope.
Delimit Scope py_scope with py.
Notation "'do' x <- m ; k" := (bind m (fun x => k))
  (at level 10, x name, m at level 100, k at level 200,
   format "'[v' 'do'  x  <-  m ; '/' k ']'") : py_scope.
Notation "'do' ' pat <- m ; k" :=
  (bind m (fun x => match x with pat => k end))
  (at level 10, pat pattern, m at level 100, k at level 200,
   format "'[v' 'do'  ' pat  <-  m ; '/' k ']'") : py_scope.
Notation "'run_' m ; k" := (bind m (fun _ => k))
  (at level 10, m at level 100, k at level 200,
   format "'[v' 'run_'  m ; '/' k ']'") : py_scope.
Local Open Scope py_scope.

(** Lifting a pure fallible value, and a fallible file-system update. *)
Definition lift {A} (r : exn + A) : M A :=
  match r with inl e => raise e | inr x => ret x end.

Definition fs_update (op : gmap PurePath node → exn + gmap PurePath node)
    : M unit :=
  fun w =>
    match op (fs w) with
    | inl e => (inl e, w)
    | inr f => (inr tt, set_fs f w)
    end.

Definition fs_read {A} (op : gmap PurePath node → exn + A) : M A :=
  fun w => (op (fs w), w).

(** [d[key]] on a JSON object whose key may be absent. *)
Definition getitem {A} (key : string) (o : option A) : M A :=
  match o with Some x => ret x | None => raise (KeyError key) end.

Definition logged (l : level) (msg : string) (w : world) : world :=
  mkWorld (fs w) (clock w) (log w ++ [(l, msg)]).

Definition logging (l : level) (msg : string) : M unit :=
  fun w => (inr tt, logged l msg w).

(** [try: body except Exception as e: handler(e)] *)
Definition try_except {A} (body : M A) (handler : exn → M A) : M A :=
  fun w =>
    match body w with
    | (inr x, w') => (inr x, w')
    | (inl e, w') => handler e w'
    end.

(** ** The benchmarks description and the rules (parsed JSON) *)

Record files_t := mkFiles {
  f_design : option string;
  f_tree : option string;
  f_entropy : option string
}.

(** [name] is read outside every handler (by the first log line of [run]
    and by the collection built in [main]), so a description without it
    never reaches a task; it is a plain field here. *)
Record benchmark_item := mkItem {
  name : string;
  majority_support : option bool;
  files : option files_t
}.

Record benchmark_t := mkBenchmark {
  b_name : string;
  b_list : list benchmark_item
}.

Record rule := mkRule {
  r_benchmark : string;
  r_list : option (list string)
}.

(** A task identity: (benchmark name, item name). *)
Abbreviation ident := (string * string)%type.

(** ** Rule filter *)

Definition check_rule (rule : rule) (collection_item : ident) : bool :=
  let '(benchmark_name, benchmark_item) := collection_item in
  String.eqb benchmark_name (r_benchmark rule)
  && match r_list rule with
     | None => true
     | Some l =>
         (List.length l =? 0)%nat
         || bool_decide (benchmark_item ∈ (list_to_set l : gset string))
     end.

Definition apply_rules (collection : gset ident) (rules : list rule)
    : gset ident :=
  list_to_set
    (concat (map (fun rule => List.filter (check_rule rule)
                                          (elements collection)) rules)).

(** ** The landauer package and the timer *)

Class Landauer := {
  tree_t : Type;
  entropy_t : Type;
  parse_parse : string → bool → exn + tree_t;
  parse_serialize : tree_t → exn + string;
  parse_deserialize : string → exn + tree_t;
  entropy_entropy : tree_t → Z → exn + entropy_t;
  entropy_serialize : entropy_t → exn + string
}.

(** The reading of the monotonic clock at its [n]-th call. *)
Class Timer := { default_timer : nat → Z }.

(** The tuple returned by a successful [run]:
    (benchmark, name, tree_overwritten, tree_time, entropy_overwritten,
    entropy_time). *)
Abbreviation row := (string * string * bool * Z * bool * Z)%type.

Definition row_ident (r : row) : ident :=
  let '(b, n, _, _, _, _) := r in (b, n).
Definition tree_overwritten (r : row) : bool :=
  let '(_, _, t, _, _, _) := r in t.
Definition tree_time (r : row) : Z :=
  let '(_, _, _, t, _, _) := r in t.
Definition entropy_overwritten (r : row) : bool :=
  let '(_, _, _, _, e, _) := r in e.
Definition entropy_time (r : row) : Z :=
  let '(_, _, _, _, _, t) := r in t.

Record DataFrame := mkDataFrame {
  columns : list string;
  rows : list row
}.

(** The arguments of a task: (working_directory, benchmark,
    benchmark_item, overwrite, timeout). *)
Abbreviation task := (PurePath * string * benchmark_item * bool * Z)%type.

Definition task_ident (t : task) : ident :=
  let '(_, b, item, _, _) := t in (b, name item).

Record args := mkArgs {
  benchmarks : list benchmark_t;      (* the parsed description *)
  benchmarks_name : string;           (* its file name *)
  cwd : PurePath;                     (* the process's directory *)
  accept : option (list rule);
  ignore : option (list rule);
  processes : nat;
  timeout : Z;
  overwrite : bool
}.

Section Harness.
Context `{L : Landauer} `{T : Timer}.

Definition timer : M Z :=
  fun w => (inr (default_timer (clock w)),
            mkWorld (fs w) (S (clock w)) (log w)).

Definition path_is_file (p : PurePath) : M bool :=
  fun w => (inr (is_file w p), w).

Definition write (p : PurePath) (text : string) : M unit :=
  fun w => (inr tt, set_fs (<[p := File text]> (fs w)) w).

Definition path (working_directory : PurePath) (filename : string)
    : PurePath :=
  if is_absolute (Path filename) then Path filename
  else joinpath working_directory (Path filename).

Definition get_tree_data (tree : PurePath) (design_data : string)
    (majority_support : bool) (overwrite : bool) : M (tree_t * bool * Z) :=
  do start <- timer;
  do present <- path_is_file tree;
  if overwrite || negb present then
    run_ fs_update (mkdir_parents (parent tree));
    do tree_data <- lift (parse_parse design_data majority_support);
    run_ fs_update (open_w tree);
    do text <- lift (parse_serialize tree_data);
    run_ write tree text;
    do stop <- timer;
    ret (tree_data, true, stop - start)
  else
    do text <- fs_read (read_text tree);
    do tree_data <- lift (parse_deserialize text);
    do stop <- timer;
    ret (tree_data, false, stop - start).

Definition generate_entropy_data (entropy_file : PurePath)
    (tree_data : tree_t) (overwrite : bool) (timeout : Z) : M (bool * Z) :=
  do start <- timer;
  do present <- path_is_file entropy_file;
  if overwrite || negb present then
    run_ fs_update (mkdir_parents (parent entropy_file));
    do entropy_data <- lift (entropy_entropy tree_data timeout);
    run_ fs_update (open_w entropy_file);
    do text <- lift (entropy_serialize entropy_data);
    run_ write entropy_file text;
    do stop <- timer;
    ret (true, stop - start)
  else
    do stop <- timer;
    ret (false, stop - start).

Definition task_label (benchmark : string) (benchmark_item : benchmark_item)
    : string :=
  "'" +:+ name benchmark_item +:+ "' from '" +:+ benchmark +:+ "'".

(** The body of the [try] block of [run]. *)
Definition run_body (working_directory : PurePath) (benchmark : string)
    (benchmark_item : benchmark_item) (overwrite : bool) (timeout : Z)
    : M (option row) :=
  do fl <- getitem "files" (files benchmark_item);
  do design_name <- getitem "design" (f_design fl);
  let design := path working_directory design_name in
  do found <- path_is_file design;
  run_ (if found then ret tt
        else raise (AssertionError
                      (task_label benchmark benchmark_item
                       +:+ ": design not found")));
  do design_data <- fs_read (read_text design);
  do fl <- getitem "files" (files benchmark_item);
  do tree_name <- getitem "tree" (f_tree fl);
  let tree := path working_directory tree_name in
  do ms <- getitem "majority_support" (majority_support benchmark_item);
  do '(tree_data, tree_overwritten, tree_time) <-
    get_tree_data tree design_data ms overwrite;
  do fl <- getitem "files" (files benchmark_item);
  do entropy_name <- getitem "entropy" (f_entropy fl);
  let entropy_file := path working_directory entropy_name in
  do '(entropy_overwritten, entropy_time) <-
    generate_entropy_data entropy_file tree_data
                          (overwrite || tree_overwritten) timeout;
  run_ logging INFO (task_label benchmark benchmark_item +:+ ": completed");
  ret (Some (benchmark, name benchmark_item, tree_overwritten, tree_time,
             entropy_overwritten, entropy_time)).

Definition run (working_directory : PurePath) (benchmark : string)
    (benchmark_item : benchmark_item) (overwrite : bool) (timeout : Z)
    : M (option row) :=
  run_ logging INFO (task_label benchmark benchmark_item +:+ ": started");
  try_except
    (run_body working_directory benchmark benchmark_item overwrite timeout)
    (fun e =>
       run_ logging ERROR (task_label benchmark benchmark_item
                           +:+ ": failed: " +:+ exn_str e);
       ret None).

Definition run_task (t : task) : M (option row) :=
  let '(working_directory, benchmark, benchmark_item, overwrite, timeout) := t
  in run working_directory benchmark benchmark_item overwrite timeout.

(** [pool.starmap(run, tasks)]: the workers finish the tasks in some
    order [sched] (indices into [tasks]); each result is stored at the
    index of its task, so the list returned is in submission order.
    Tasks are taken to run one at a time on the shared file system. *)
Fixpoint pool_execute (tasks : list task) (sched : list nat)
    (result : list (option row)) : M (list (option row)) :=
  match sched with
  | [] => ret result
  | i :: sched' =>
      match tasks !! i with
      | Some t =>
          do r <- run_task t;
          pool_execute tasks sched' (<[i := r]> result)
      | None => pool_execute tasks sched' result
      end
  end.

Definition starmap (tasks : list task) (sched : list nat)
    : M (list (option row)) :=
  pool_execute tasks sched (replicate (List.length tasks) None).

(** Lines 112-121 of [main]: the universe and the selection. *)
Definition identities (benchmarks : list benchmark_t) : list ident :=
  benchmark ← benchmarks;
  benchmark_item ← b_list benchmark;
  [(b_name benchmark, name benchmark_item)].

Definition universe (benchmarks : list benchmark_t) : gset ident :=
  list_to_set (identities benchmarks).

Definition selection (collection : gset ident)
    (accept ignore : option (list rule)) : gset ident :=
  let collection :=
    match accept with
    | Some rules => apply_rules collection rules
    | None => collection
    end in
  match ignore with
  | Some rules => collection ∖ apply_rules collection rules
  | None => collection
  end.

(** [Path(args.benchmarks.name).parent.resolve()] *)
Definition working_directory_of (a : args) : PurePath :=
  joinpath (cwd a) (parent (Path (benchmarks_name a))).

(** Lines 125-126 of [main]. *)
Definition tasks_of (a : args) (collection : gset ident) : list task :=
  benchmark ← benchmarks a;
  benchmark_item ← b_list benchmark;
  if bool_decide ((b_name benchmark, name benchmark_item) ∈ collection)
  then [(working_directory_of a, b_name benchmark, benchmark_item,
         overwrite a, timeout a)]
  else [].

Definition report_columns : list string :=
  ["benchmark"; "name"; "tree_overwritten"; "tree_time";
   "entropy_overwritten"; "entropy_time"].

Definition main (a : args) (sched : list nat) : M DataFrame :=
  let collection := selection (universe (benchmarks a)) (accept a) (ignore a) in
  let tasks := tasks_of a collection in
  do result <- starmap tasks sched;
  ret (mkDataFrame report_columns (omap id result)).

End Harness.

(** ** Vocabulary of the statements *)

(** *** Files are never removed *)

Definition fs_le (w w' : world) : Prop :=
  ∀ p, is_file w p = true → is_file w' p = true.

Definition grows {A} (m : M A) : Prop :=
  ∀ w x w', m w = (x, w') → fs_le w w'.

(** *** A task whose artifacts are in place *)

Definition ready (wd : PurePath) (item : benchmark_item) (w : world) : Prop :=
  ∃ fl dn tn en,
    files item = Some fl
    ∧ f_design fl = Some dn ∧ f_tree fl = Some tn ∧ f_entropy fl = Some en
    ∧ is_file w (path wd dn) = true
    ∧ is_file w (path wd tn) = true
    ∧ is_file w (path wd en) = true.

Definition task_ready (t : task) (w : world) : Prop :=
  let '(wd, _, item, _, _) := t in ready wd item w.

(** *** Variants of the arguments *)

Definition with_rules (a : args) (acc ign : option (list rule)) : args :=
  mkArgs (benchmarks a) (benchmarks_name a) (cwd a) acc ign
         (processes a) (timeout a) (overwrite a).

(** The arguments of a later invocation without [--overwrite]. *)
Definition rerun (a : args) : args :=
  mkArgs (benchmarks a) (benchmarks_name a) (cwd a) (accept a) (ignore a)
         (processes a) (timeout a) false.

Definition without_overwrite (t : task) : task :=
  let '(wd, b, item, _, timeout) := t in (wd, b, item, false, timeout).

(** The artifact files a task writes. *)
Definition artifact_paths (wd : PurePath) (item : benchmark_item)
    : list PurePath :=
  match files item with
  | Some fl =>
      (path wd <$> option_list (f_tree fl))
      ++ (path wd <$> option_list (f_entropy fl))
  | None => []
  end.

Definition task_artifacts (t : task) : list PurePath :=
  let '(wd, _, item, _, _) := t in artifact_paths wd item.

Definition description_artifacts (a : args) : list PurePath :=
  bm ← benchmarks a;
  item ← b_list bm;
  artifact_paths (working_directory_of a) item.

(** *** Effects on the file system and on the log *)

(** Outside the paths [Ps], [w'] has every entry of [w] unchanged, and
    anything new there is a directory. *)
Definition keeps_outside (Ps : PurePath → Prop) (w w' : world) : Prop :=
  ∀ p, ¬ Ps p →
       fs w' !! p = fs w !! p ∨ (fs w !! p = None ∧ fs w' !! p = Some Dir).



Section Ran.
Context `{L : Landauer} `{T : Timer}.

(** [o] is what [run] returned for the task [t], in some state of the
    world. *)
Definition ran (t : task) (o : option row) : Prop :=
  ∃ w w' : world, run_task t w = (inr o, w').

End Ran.

(** ** A small concrete instance, used to evaluate the harness *)

Module Demo.

Definition strip_prefix (pre s : string) : option string :=
  if String.prefix pre s
  then Some (String.substring (String.length pre)
                              (String.length s - String.length pre) s)
  else None.

(** Trees are the design text itself, serialized behind a tag; a text
    without the tag does not deserialize, an empty design does not
    parse, and the entropy step rejects a negative time budget. *)
Definition toy : Landauer := {|
  tree_t := string;
  entropy_t := string;
  parse_parse := fun d _ =>
    if String.eqb d EmptyString then inl (LandauerError "empty design") else inr d;
  parse_serialize := fun t => inr ("tree:" +:+ t);
  parse_deserialize := fun s =>
    match strip_prefix "tree:" s with
    | Some t => inr t
    | None => inl (LandauerError "malformed tree")
    end;
  entropy_entropy := fun t timeout =>
    if timeout <? 0 then inl (LandauerError "negative timeout")
    else inr ("H(" +:+ t +:+ ")");
  entropy_serialize := fun e => inr e
|}.

Definition ticks : Timer := {| default_timer := fun n => 10 * Z.of_nat n |}.

Definition root : PurePath := mkPath true ["bench"].

Definition item_x : benchmark_item :=
  mkItem "x" (Some true)
         (Some (mkFiles (Some "x.v") (Some "out/x.tree") (Some "out/x.ent"))).

Definition item_y : benchmark_item :=
  mkItem "y" (Some false)
         (Some (mkFiles (Some "y.v") (Some "out/y.tree") (Some "out/y.ent"))).

Definition item_z : benchmark_item :=
  mkItem "z" (Some false)
         (Some (mkFiles (Some "z.v") (Some "/abs/z.tree") (Some "out/z.ent"))).

Definition disk (f : list (PurePath * node)) : world :=
  mkWorld (list_to_map f) 0 [].

Definition w0 : world :=
  disk [(mkPath true ["bench"], Dir);
        (mkPath true ["bench"; "x.v"], File "module x");
        (mkPath true ["bench"; "y.v"], File "module y")].

(** The entropy of [x] is on disk from an earlier run, its tree is not. *)
Definition w_stale : world :=
  disk [(mkPath true ["bench"], Dir);
        (mkPath true ["bench"; "x.v"], File "module x");
        (mkPath true ["bench"; "out"], Dir);
        (mkPath true ["bench"; "out"; "x.ent"], File "H(old)")].

(** The tree file of [x] holds text that is not a serialized tree. *)
Definition w_corrupt : world :=
  disk [(mkPath true ["bench"], Dir);
        (mkPath true ["bench"; "x.v"], File "module x");
        (mkPath true ["bench"; "out"], Dir);
        (mkPath true ["bench"; "out"; "x.tree"], File "garbage")].

Definition tree_x : PurePath := mkPath true ["bench"; "out"; "x.tree"].
Definition entropy_x : PurePath := mkPath true ["bench"; "out"; "x.ent"].

Definition args_A : args :=
  mkArgs [mkBenchmark "A" [item_x; item_y]] "/bench/benchmarks.json"
         (mkPath true []) None None 2 0 false.

(** A description that lists the item [x] of [A] twice. *)
Definition args_dup : args :=
  mkArgs [mkBenchmark "A" [item_x; item_x]] "/bench/benchmarks.json"
         (mkPath true []) None None 2 0 false.

(** Two benchmarks and two accept rules. *)
Definition args_AB : args :=
  mkArgs [mkBenchmark "A" [item_x; item_y]; mkBenchmark "B" [item_z]]
         "/bench/benchmarks.json" (mkPath true [])
         (Some [mkRule "B" None; mkRule "A" (Some ["y"])]) None 2 0 false.

Definition selected (a : args) : gset ident :=
  selection (universe (benchmarks a)) (accept a) (ignore a).

(** The first invocation on [args_A], the second task finishing first. *)
Definition first_run : (exn + DataFrame) * world :=
  @main toy ticks args_A [1%nat; 0%nat] w0.

Definition first_report : DataFrame :=
  match first_run.1 with
  | inr df => df
  | inl _ => mkDataFrame [] []
  end.

(** A landauer whose serializers reject some values: the tree of the
    design of [y], and the entropy of the design of [x]. *)
Definition brittle : Landauer := {|
  tree_t := string;
  entropy_t := string;
  parse_parse := fun d _ =>
    if String.eqb d EmptyString then inl (LandauerError "empty design") else inr d;
  parse_serialize := fun t =>
    if String.eqb t "module y" then inl (LandauerError "unserializable tree")
    else inr ("tree:" +:+ t);
  parse_deserialize := fun s =>
    match strip_prefix "tree:" s with
    | Some t => inr t
    | None => inl (LandauerError "malformed tree")
    end;
  entropy_entropy := fun t timeout =>
    if timeout <? 0 then inl (LandauerError "negative timeout")
    else inr ("H(" +:+ t +:+ ")");
  entropy_serialize := fun e =>
    if String.eqb e "H(module x)"
    then inl (LandauerError "unserializable entropy")
    else inr e
|}.

Definition tree_y : PurePath := mkPath true ["bench"; "out"; "y.tree"].

(** An item without a [files] object, and one whose [files] has no
    [entropy] entry. *)
Definition item_bare : benchmark_item := mkItem "bare" (Some true) None.

Definition item_sparse : benchmark_item :=
  mkItem "sparse" (Some true)
         (Some (mkFiles (Some "x.v") (Some "out/sparse.tree") None)).



End Demo.

(** ** Rule filter: [check_rule], [apply_rules], [selection] *)

Section RuleFilter.
Implicit Types (U : gset ident) (rules : list rule) (x : ident).

Lemma check_rule_true rule b i :
  check_rule rule (b, i) = true ↔
  r_benchmark rule = b ∧
  match r_list rule with
  | None => True
  | Some l => l = [] ∨ i ∈ l
  end.
Proof.
  unfold check_rule. rewrite andb_true_iff, String.eqb_eq.
  destruct (r_list rule) as [l|].
  - rewrite orb_true_iff, Nat.eqb_eq, bool_decide_eq_true, elem_of_list_to_set.
    rewrite length_zero_iff_nil. naive_solver.
  - naive_solver.
Qed.

Lemma elem_of_apply_rules U rules x :
  x ∈ apply_rules U rules ↔
  x ∈ U ∧ ∃ rule, rule ∈ rules ∧ check_rule rule x = true.
Proof.
  unfold apply_rules. rewrite elem_of_list_to_set, list_elem_of_In, in_concat.
  split.
  - intros (l & Hl & Hx). apply in_map_iff in Hl as (rule & <- & Hr).
    apply filter_In in Hx as [Hx Hc].
    rewrite <- list_elem_of_In, elem_of_elements in Hx.
    rewrite <- list_elem_of_In in Hr. eauto.
  - intros (Hx & rule & Hr & Hc).
    exists (List.filter (check_rule rule) (elements U)). split.
    + apply in_map_iff. exists rule. by rewrite <- list_elem_of_In.
    + apply filter_In. by rewrite <- list_elem_of_In, elem_of_elements.
Qed.

Lemma apply_rules_subseteq U rules : apply_rules U rules ⊆ U.
Proof. intros x. rewrite elem_of_apply_rules. tauto. Qed.

Lemma apply_rules_Permutation U rules rules' :
  rules ≡ₚ rules' → apply_rules U rules = apply_rules U rules'.
Proof.
  intros HP. apply set_eq. intros x. rewrite !elem_of_apply_rules.
  by setoid_rewrite HP.
Qed.

Lemma elem_of_selection U acc ign x :
  x ∈ selection U acc ign ↔
  x ∈ U
  ∧ match acc with
    | None => True
    | Some rules => ∃ rule, rule ∈ rules ∧ check_rule rule x = true
    end
  ∧ match ign with
    | None => True
    | Some rules => ¬ ∃ rule, rule ∈ rules ∧ check_rule rule x = true
    end.
Proof.
  unfold selection. destruct acc as [ra|], ign as [ri|];
    rewrite ?elem_of_difference, ?elem_of_apply_rules; tauto.
Qed.

End RuleFilter.

(** C5. A task identity matches a rule exactly when the benchmark names
    are equal and the rule's item list is absent, empty or contains the
    item name; a rule whose benchmark names no entry of the universe
    selects nothing; and no rules select nothing. *)
Theorem check_rule_apply_rules_spec (rule : rule) (b i : string)
    (U : gset ident) :
  (check_rule rule (b, i) = true ↔
   r_benchmark rule = b
   ∧ (r_list rule = None ∨ r_list rule = Some []
      ∨ ∃ l, r_list rule = Some l ∧ i ∈ l))
  ∧ ((∀ j, (r_benchmark rule, j) ∉ U) →
     (∀ x, x ∈ U → check_rule rule x = false) ∧ apply_rules U [rule] = ∅)
  ∧ apply_rules U [] = ∅.
Proof.
  split; [|split].
  - rewrite check_rule_true. destruct (r_list rule) as [l|]; naive_solver.
  - intros Habs.
    assert (Hno : ∀ x, x ∈ U → check_rule rule x = false).
    { intros [b' i'] Hx. destruct (check_rule rule (b', i')) eqn:Hc; [|done].
      apply check_rule_true in Hc as [<- _]. by destruct (Habs i'). }
    split; [done|]. apply set_eq. intros x.
    rewrite elem_of_apply_rules. setoid_rewrite list_elem_of_singleton.
    split; [|set_solver]. intros (Hx & r & -> & Hc).
    rewrite (Hno x Hx) in Hc. done.
  - apply set_eq. intros x. rewrite elem_of_apply_rules. set_solver.
Qed.

Lemma check_rule_apply_rules_spec_witness :
  (∀ j, ("C", j) ∉ ({[ ("A", "x"); ("A", "y"); ("B", "z") ]} : gset ident))
  ∧ apply_rules {[ ("A", "x"); ("A", "y"); ("B", "z") ]} [mkRule "C" None] = ∅.
Proof.
  assert (H : ∀ j : string,
    ("C", j) ∉ ({[ ("A", "x"); ("A", "y"); ("B", "z") ]} : gset ident))
    by set_solver.
  split; [exact H|].
  exact (proj2 (proj1 (proj2 (check_rule_apply_rules_spec
    (mkRule "C" None) "A" "x" {[ ("A", "x"); ("A", "y"); ("B", "z") ]})) H)).
Defined.

(** C6. Without accept rules the selection is the whole universe,
    otherwise it is [apply_rules] of the universe; ignore rules, when
    given, remove from that selection what they match in it; and the two
    scenarios over the universe A/x, A/y, B/z. *)
Theorem selection_spec (U : gset ident) (acc ign : list rule) :
  selection U None None = U
  ∧ selection U (Some acc) None = apply_rules U acc
  ∧ selection U None (Some ign) = U ∖ apply_rules U ign
  ∧ selection U (Some acc) (Some ign)
    = apply_rules U acc ∖ apply_rules (apply_rules U acc) ign
  ∧ selection {[ ("A", "x"); ("A", "y"); ("B", "z") ]}
              (Some [mkRule "A" (Some [])]) None
    = {[ ("A", "x"); ("A", "y") ]}
  ∧ selection {[ ("A", "x"); ("A", "y"); ("B", "z") ]}
              (Some [mkRule "A" (Some [])]) (Some [mkRule "A" (Some ["x"])])
    = {[ ("A", "y") ]}.
Proof.
  split_and!; try reflexivity; by vm_compute.
Qed.

(** ** The cache steps *)

Ltac unfold_monad :=
  unfold bind, ret, raise, lift, timer, path_is_file, fs_update, fs_read,
    write, logging, getitem, try_except, set_fs in *; cbn [fst snd] in *.

Section CacheSteps.
Context `{L : Landauer} `{T : Timer}.

Lemma bind_inr {A B} (m : M A) (k : A → M B) w y w' :
  bind m k w = (inr y, w') ↔
  ∃ x w1, m w = (inr x, w1) ∧ k x w1 = (inr y, w').
Proof.
  unfold bind. destruct (m w) as [[e|x] w1] eqn:E.
  - split; [done|]. by intros (? & ? & [=] & _).
  - split; [eauto|]. by intros (? & ? & [= <- <-] & ?).
Qed.


(** The successful outcomes of [get_tree_data], branch by branch. *)
Lemma get_tree_data_inr (tree : PurePath) (design_data : string)
    (majority_support overwrite : bool) (w w' : world)
    (tree_data : tree_t) (recomputed : bool) (elapsed : Z) :
  get_tree_data tree design_data majority_support overwrite w
    = (inr (tree_data, recomputed, elapsed), w') ↔
  recomputed = overwrite || negb (is_file w tree)
  ∧ elapsed = default_timer (S (clock w)) - default_timer (clock w)
  ∧ if recomputed then
      ∃ f1 text,
        mkdir_parents (parent tree) (fs w) = inr f1
        ∧ parse_parse design_data majority_support = inr tree_data
        ∧ open_w tree f1 = inr (<[tree := File EmptyString]> f1)
        ∧ parse_serialize tree_data = inr text
        ∧ w' = mkWorld (<[tree := File text]> f1) (S (S (clock w))) (log w)
    else
      ∃ text,
        read_text tree (fs w) = inr text
        ∧ parse_deserialize text = inr tree_data
        ∧ w' = mkWorld (fs w) (S (S (clock w))) (log w).
Proof.
  unfold get_tree_data. unfold_monad.
  change (is_file {| fs := fs w; clock := S (clock w); log := log w |} tree)
    with (is_file w tree).
  destruct (overwrite || negb (is_file w tree)) eqn:Hc; cbn [fs clock log].
  - destruct (mkdir_parents (parent tree) (fs w)) as [e|f1] eqn:Hm; simpl.
    { split; [done|]. by intros (-> & _ & ? & ? & ? & _). }
    destruct (parse_parse design_data majority_support) as [e|td] eqn:Hp;
      simpl.
    { split; [done|]. by intros (-> & _ & ? & ? & _ & ? & _). }
    destruct (open_w tree f1) as [e|f2] eqn:Ho; simpl.
    { split; [done|]. intros (-> & _ & ? & ? & [= <-] & _ & ? & _).
      congruence. }
    destruct (parse_serialize td) as [e|text] eqn:Hs; simpl.
    { split; [done|]. intros (-> & _ & ? & ? & _ & [= <-] & _ & ? & _).
      congruence. }
    assert (f2 = <[tree := File EmptyString]> f1) as ->.
    { unfold open_w in Ho. repeat case_match; congruence. }
    rewrite insert_insert_eq. split.
    + intros [= <- <- <- <-]. split_and!; try done. eauto 10.
    + intros (-> & -> & ? & ? & [= <-] & [= <-] & _ & ? & ->).
      repeat f_equal. congruence.
  - assert (∃ text, read_text tree (fs w) = inr text) as [text Ht].
    { apply orb_false_iff in Hc as [_ Hc]. apply negb_false_iff in Hc.
      unfold is_file, read_text in *. repeat case_match; naive_solver. }
    rewrite Ht; simpl.
    destruct (parse_deserialize text) as [e|td] eqn:Hd; simpl.
    + split; [done|]. intros (-> & _ & ? & ? & ? & _). congruence.
    + split.
      * intros [= <- <- <- <-]. eauto 10.
      * intros (-> & -> & ? & ? & ? & ->). repeat f_equal. congruence.
Qed.

(** C3. [get_tree_data] recomputes exactly when [overwrite] holds or the
    target is not a file: then the parent directories are made, the
    design is parsed, and the serialized tree is written to the target,
    with flag [true]; otherwise the existing file is read and
    deserialized and the file system is left as it was, with flag
    [false]. Both branches return the difference of the two clock
    readings. *)
Theorem get_tree_data_spec (tree : PurePath) (design_data : string)
    (majority_support overwrite : bool) (w w' : world)
    (tree_data : tree_t) (recomputed : bool) (elapsed : Z) :
  get_tree_data tree design_data majority_support overwrite w
    = (inr (tree_data, recomputed, elapsed), w') ↔
  recomputed = overwrite || negb (is_file w tree)
  ∧ elapsed = default_timer (S (clock w)) - default_timer (clock w)
  ∧ if recomputed then
      ∃ f1 text,
        mkdir_parents (parent tree) (fs w) = inr f1
        ∧ parse_parse design_data majority_support = inr tree_data
        ∧ open_w tree f1 = inr (<[tree := File EmptyString]> f1)
        ∧ parse_serialize tree_data = inr text
        ∧ w' = mkWorld (<[tree := File text]> f1) (S (S (clock w))) (log w)
    else
      ∃ text,
        read_text tree (fs w) = inr text
        ∧ parse_deserialize text = inr tree_data
        ∧ w' = mkWorld (fs w) (S (S (clock w))) (log w).
Proof. apply get_tree_data_inr. Qed.

Lemma generate_entropy_data_spec (entropy_file : PurePath)
    (tree_data : tree_t) (overwrite : bool) (timeout : Z) (w w' : world)
    (recomputed : bool) (elapsed : Z) :
  generate_entropy_data entropy_file tree_data overwrite timeout w
    = (inr (recomputed, elapsed), w') ↔
  recomputed = overwrite || negb (is_file w entropy_file)
  ∧ elapsed = default_timer (S (clock w)) - default_timer (clock w)
  ∧ if recomputed then
      ∃ f1 entropy_data text,
        mkdir_parents (parent entropy_file) (fs w) = inr f1
        ∧ entropy_entropy tree_data timeout = inr entropy_data
        ∧ open_w entropy_file f1 = inr (<[entropy_file := File EmptyString]> f1)
        ∧ entropy_serialize entropy_data = inr text
        ∧ w' = mkWorld (<[entropy_file := File text]> f1)
                       (S (S (clock w))) (log w)
    else w' = mkWorld (fs w) (S (S (clock w))) (log w).
Proof.
  unfold generate_entropy_data. unfold_monad.
  change (is_file {| fs := fs w; clock := S (clock w); log := log w |}
                  entropy_file)
    with (is_file w entropy_file).
  destruct (overwrite || negb (is_file w entropy_file)) eqn:Hc;
    cbn [fs clock log].
  - destruct (mkdir_parents (parent entropy_file) (fs w)) as [e|f1] eqn:Hm;
      simpl.
    { split; [done|]. by intros (-> & _ & ? & ? & ? & ? & _). }
    destruct (entropy_entropy tree_data timeout) as [e|ed] eqn:Hp; simpl.
    { split; [done|]. by intros (-> & _ & ? & ? & ? & _ & ? & _). }
    destruct (open_w entropy_file f1) as [e|f2] eqn:Ho; simpl.
    { split; [done|]. intros (-> & _ & ? & ? & ? & [= <-] & _ & ? & _).
      congruence. }
    destruct (entropy_serialize ed) as [e|text] eqn:Hs; simpl.
    { split; [done|].
      intros (-> & _ & ? & ? & ? & [= <-] & [= <-] & _ & ? & _). congruence. }
    assert (f2 = <[entropy_file := File EmptyString]> f1) as ->.
    { unfold open_w in Ho. repeat case_match; congruence. }
    rewrite insert_insert_eq. split.
    + intros [= <- <- <-]. split_and!; try done. eauto 10.
    + intros (-> & -> & ? & ? & ? & [= <-] & [= <-] & _ & ? & ->).
      repeat f_equal. congruence.
  - split.
    + by intros [= <- <- <-].
    + by intros (-> & -> & ->).
Qed.

End CacheSteps.

(** ** The task runner *)

Section TaskRunner.
Context `{L : Landauer} `{T : Timer}.
Implicit Types (w : world) (wd : PurePath) (item : benchmark_item).

Lemma is_file_logged w l msg p : is_file (logged l msg w) p = is_file w p.
Proof. done. Qed.

Lemma getitem_inr {A} (key : string) (o : option A) w x w' :
  getitem key o w = (inr x, w') ↔ o = Some x ∧ w' = w.
Proof. destruct o; unfold getitem, ret, raise; naive_solver. Qed.

(** Success of the [try] block, step by step. *)
Lemma run_body_inr wd b item ow timeout w o w' :
  run_body wd b item ow timeout w = (inr o, w') ↔
  ∃ fl dn tn en ms dd td t_over t_time e_over e_time w2 w3,
    files item = Some fl
    ∧ f_design fl = Some dn ∧ f_tree fl = Some tn ∧ f_entropy fl = Some en
    ∧ majority_support item = Some ms
    ∧ read_text (path wd dn) (fs w) = inr dd
    ∧ get_tree_data (path wd tn) dd ms ow w = (inr (td, t_over, t_time), w2)
    ∧ generate_entropy_data (path wd en) td (ow || t_over) timeout w2
      = (inr (e_over, e_time), w3)
    ∧ w' = logged INFO (task_label b item +:+ ": completed") w3
    ∧ o = Some (b, name item, t_over, t_time, e_over, e_time).
Proof.
  unfold run_body. split.
  - intros H.
    apply bind_inr in H as (fl & ? & [Hfl ->]%getitem_inr & H).
    apply bind_inr in H as (dn & ? & [Hdn ->]%getitem_inr & H).
    apply bind_inr in H as (found & ? & [= <- <-] & H).
    apply bind_inr in H as ([] & w1 & Hfound & H).
    assert (w1 = w) as ->.
    { destruct (is_file w (path wd dn)); by inversion Hfound. }
    apply bind_inr in H as (dd & ? & Hdd & H).
    unfold fs_read in Hdd. injection Hdd as Hdd <-.
    apply bind_inr in H as (fl' & ? & [Hfl' ->]%getitem_inr & H).
    assert (fl' = fl) as -> by congruence.
    apply bind_inr in H as (tn & ? & [Htn ->]%getitem_inr & H).
    apply bind_inr in H as (ms & ? & [Hms ->]%getitem_inr & H).
    apply bind_inr in H as ([[td t_over] t_time] & w2 & Hg & H).
    apply bind_inr in H as (fl' & ? & [Hfl'' ->]%getitem_inr & H).
    assert (fl' = fl) as -> by congruence.
    apply bind_inr in H as (en & ? & [Hen ->]%getitem_inr & H).
    apply bind_inr in H as ([e_over e_time] & w3 & He & H).
    apply bind_inr in H as ([] & ? & [= <-] & [= <- <-]).
    do 13 eexists. split_and!; done.
  - intros (fl & dn & tn & en & ms & dd & td & t_over & t_time & e_over
            & e_time & w2 & w3 & Hfl & Hdn & Htn & Hen & Hms & Hdd & Hg & He
            & -> & ->).
    assert (Hfound : is_file w (path wd dn) = true).
    { unfold is_file, read_text in *. repeat case_match; naive_solver. }
    apply bind_inr. exists fl, w. split; [by apply getitem_inr|].
    apply bind_inr. exists dn, w. split; [by apply getitem_inr|].
    apply bind_inr. exists true, w. split; [by rewrite <- Hfound|].
    apply bind_inr. exists tt, w. split; [done|].
    apply bind_inr. exists dd, w. split; [by unfold fs_read; rewrite Hdd|].
    apply bind_inr. exists fl, w. split; [by apply getitem_inr|].
    apply bind_inr. exists tn, w. split; [by apply getitem_inr|].
    apply bind_inr. exists ms, w. split; [by apply getitem_inr|].
    apply bind_inr. exists (td, t_over, t_time), w2. split; [done|].
    apply bind_inr. exists fl, w2. split; [by apply getitem_inr|].
    apply bind_inr. exists en, w2. split; [by apply getitem_inr|].
    apply bind_inr. exists (e_over, e_time), w3. split; [done|].
    apply bind_inr. eexists tt, _. split; done.
Qed.

Lemma run_eq wd b item ow timeout w :
  run wd b item ow timeout w =
  match run_body wd b item ow timeout
                 (logged INFO (task_label b item +:+ ": started") w) with
  | (inr o, w') => (inr o, w')
  | (inl e, w') =>
      (inr None,
       logged ERROR (task_label b item +:+ ": failed: " +:+ exn_str e) w')
  end.
Proof.
  unfold run, bind, logging, try_except, ret.
  by destruct (run_body _ _ _ _ _ _) as [[e|o] w'].
Qed.

(** [run] never lets an exception out. *)
Lemma run_total wd b item ow timeout w :
  ∃ o w', run wd b item ow timeout w = (inr o, w').
Proof.
  rewrite run_eq. destruct (run_body _ _ _ _ _ _) as [[e|o] w']; eauto.
Qed.

Lemma run_Some wd b item ow timeout w r w' :
  run wd b item ow timeout w = (inr (Some r), w') ↔
  run_body wd b item ow timeout
           (logged INFO (task_label b item +:+ ": started") w)
    = (inr (Some r), w').
Proof.
  rewrite run_eq. destruct (run_body _ _ _ _ _ _) as [[e|o] w1]; naive_solver.
Qed.

Lemma run_Some_ident wd b item ow timeout w r w' :
  run wd b item ow timeout w = (inr (Some r), w') →
  row_ident r = (b, name item).
Proof.
  rewrite run_Some, run_body_inr.
  by intros (?&?&?&?&?&?&?&?&?&?&?&?&?&?&?&?&?&?&?&?&?&?&[= ->]).
Qed.

#[local] Instance fs_le_preorder : PreOrder fs_le.
Proof. split; [by intros w p|]. intros w1 w2 w3 H1 H2 p Hp. eauto. Qed.

Lemma grows_bind {A B} (m : M A) (k : A → M B) :
  grows m → (∀ x, grows (k x)) → grows (bind m k).
Proof.
  intros Hm Hk w y w'. unfold bind.
  destruct (m w) as [[e|x] w1] eqn:E.
  - intros [= <- <-]. eauto.
  - intros Hkx. etrans; [by eapply Hm|by eapply Hk].
Qed.

Lemma grows_same_fs {A} (m : M A) :
  (∀ w x w', m w = (x, w') → fs w' = fs w) → grows m.
Proof.
  intros H w x w' Hm p. unfold is_file. by rewrite (H _ _ _ Hm).
Qed.

Lemma is_file_insert_File w f q p text :
  (∀ n, stat (fs w) p = Some n → stat f p = Some n) →
  is_file w p = true →
  is_file (set_fs (<[q := File text]> f) w) p = true.
Proof.
  intros Hf. unfold is_file. destruct (stat (fs w) p) as [[c|]|] eqn:E; try done.
  intros _. specialize (Hf _ eq_refl). unfold stat in *; simpl.
  destruct (parts p); [done|].
  destruct (decide (q = p)) as [->|]; by simplify_map_eq.
Qed.

Lemma mkdirs_lookup a pre rest f f' q n :
  mkdirs a pre rest f = inr f' → f !! q = Some n → f' !! q = Some n.
Proof.
  revert pre f. induction rest as [|c rest IH]; intros pre f; simpl.
  - by intros [= ->].
  - destruct (f !! mkPath a (pre ++ [c])) as [[?|]|] eqn:E; [done|eauto|].
    intros Hm Hq. eapply IH; [done|].
    rewrite lookup_insert_ne; [done|]. congruence.
Qed.

Lemma mkdir_parents_stat p f f' q n :
  mkdir_parents p f = inr f' → stat f q = Some n → stat f' q = Some n.
Proof.
  unfold mkdir_parents, stat. destruct (parts q); [done|].
  apply mkdirs_lookup.
Qed.

Lemma grows_mkdir p : grows (fs_update (mkdir_parents p)).
Proof.
  intros w x w'. unfold fs_update.
  destruct (mkdir_parents p (fs w)) as [e|f] eqn:E; intros [= <- <-]; [done|].
  intros q. unfold is_file; simpl.
  destruct (stat (fs w) q) as [[c|]|] eqn:Eq; try done.
  by rewrite (mkdir_parents_stat _ _ _ _ _ E Eq).
Qed.

Lemma grows_open_w p : grows (fs_update (open_w p)).
Proof.
  intros w x w'. unfold fs_update.
  destruct (open_w p (fs w)) as [e|f] eqn:E; intros [= <- <-]; [done|].
  assert (f = <[p := File EmptyString]> (fs w)) as ->.
  { unfold open_w in E. repeat case_match; congruence. }
  intros q. by apply is_file_insert_File.
Qed.

Lemma grows_write p text : grows (write p text).
Proof.
  intros w x w'. unfold write. intros [= <- <-] q.
  by apply is_file_insert_File.
Qed.

Lemma grows_lift {A} (r : exn + A) : grows (lift r).
Proof. apply grows_same_fs. intros w x w'. destruct r; by intros [= <- <-]. Qed.

Lemma grows_getitem {A} key (o : option A) : grows (getitem key o).
Proof. apply grows_same_fs. intros w x w'. destruct o; by intros [= <- <-]. Qed.

Lemma grows_ret {A} (x : A) : grows (ret x).
Proof. apply grows_same_fs. by intros w y w' [= <- <-]. Qed.

Lemma grows_raise {A} e : grows (@raise A e).
Proof. apply grows_same_fs. by intros w y w' [= <- <-]. Qed.

Lemma grows_timer : grows timer.
Proof. apply grows_same_fs. by intros w y w' [= <- <-]. Qed.

Lemma grows_path_is_file p : grows (path_is_file p).
Proof. apply grows_same_fs. by intros w y w' [= <- <-]. Qed.

Lemma grows_fs_read {A} (op : gmap PurePath node → exn + A) :
  grows (fs_read op).
Proof. apply grows_same_fs. by intros w y w' [= <- <-]. Qed.

Lemma grows_logging l msg : grows (logging l msg).
Proof. apply grows_same_fs. by intros w y w' [= <- <-]. Qed.

Lemma grows_try_except {A} (body : M A) (handler : exn → M A) :
  grows body → (∀ e, grows (handler e)) → grows (try_except body handler).
Proof.
  intros Hb Hh w y w'. unfold try_except.
  destruct (body w) as [[e|x] w1] eqn:E.
  - intros Hk. etrans; [by eapply Hb|by eapply Hh].
  - intros [= <- <-]. eauto.
Qed.

Ltac solve_grows :=
  repeat first
    [ apply grows_bind; [|intros]
    | apply grows_try_except; [|intros]
    | apply grows_mkdir | apply grows_open_w | apply grows_write
    | apply grows_lift | apply grows_getitem | apply grows_ret
    | apply grows_raise | apply grows_timer | apply grows_path_is_file
    | apply grows_fs_read | apply grows_logging
    | match goal with
      | |- grows (if ?c then _ else _) => destruct c
      | |- grows (match ?x with _ => _ end) => destruct x
      end ].

Lemma grows_get_tree_data tree dd ms ow :
  grows (get_tree_data tree dd ms ow).
Proof. unfold get_tree_data. solve_grows. Qed.

Lemma grows_generate_entropy_data ef td ow timeout :
  grows (generate_entropy_data ef td ow timeout).
Proof. unfold generate_entropy_data. solve_grows. Qed.

Lemma grows_run wd b item ow timeout : grows (run wd b item ow timeout).
Proof.
  unfold run, run_body, get_tree_data, generate_entropy_data. solve_grows.
Qed.

Lemma ready_mono wd item w w' : fs_le w w' → ready wd item w → ready wd item w'.
Proof.
  intros Hle (fl & dn & tn & en & ? & ? & ? & ? & ? & ? & ?).
  exists fl, dn, tn, en. split_and!; auto.
Qed.

Lemma is_file_same_fs w w' p : fs w' = fs w → is_file w' p = is_file w p.
Proof. unfold is_file. by intros ->. Qed.

Lemma get_tree_data_is_file tree dd ms ow w td flag dt w' :
  get_tree_data tree dd ms ow w = (inr (td, flag, dt), w') →
  is_file w' tree = true.
Proof.
  intros H. pose proof H as Hle%grows_get_tree_data.
  apply get_tree_data_inr in H as (-> & _ & H).
  destruct (ow || negb (is_file w tree)) eqn:Hc.
  - destruct H as (f1 & text & _ & _ & Ho & _ & ->).
    unfold is_file, stat; simpl.
    unfold open_w, stat in Ho.
    destruct (parts tree); [by repeat case_match|].
    by rewrite lookup_insert_eq.
  - apply orb_false_iff in Hc as [_ Hc%negb_false_iff]. by apply Hle.
Qed.

Lemma generate_entropy_data_is_file ef td ow timeout w flag dt w' :
  generate_entropy_data ef td ow timeout w = (inr (flag, dt), w') →
  is_file w' ef = true.
Proof.
  intros H. pose proof H as Hle%grows_generate_entropy_data.
  apply generate_entropy_data_spec in H as (-> & _ & H).
  destruct (ow || negb (is_file w ef)) eqn:Hc.
  - destruct H as (f1 & ed & text & _ & _ & Ho & _ & ->).
    unfold is_file, stat; simpl.
    unfold open_w, stat in Ho.
    destruct (parts ef); [by repeat case_match|].
    by rewrite lookup_insert_eq.
  - apply orb_false_iff in Hc as [_ Hc%negb_false_iff]. by apply Hle.
Qed.

(** After a successful [run] the design and both artifacts are files. *)
Lemma run_Some_ready wd b item ow timeout w r w' :
  run wd b item ow timeout w = (inr (Some r), w') → ready wd item w'.
Proof.
  rewrite run_Some, run_body_inr.
  intros (fl & dn & tn & en & ms & dd & td & t_over & t_time & e_over
          & e_time & w2 & w3 & Hfl & Hdn & Htn & Hen & Hms & Hdd & Hg & He
          & -> & _).
  exists fl, dn, tn, en. split_and!; try done.
  - rewrite is_file_logged.
    eapply grows_generate_entropy_data; [done|].
    eapply grows_get_tree_data; [done|].
    unfold is_file, read_text in *. simpl in *. by repeat case_match.
  - rewrite is_file_logged.
    eapply grows_generate_entropy_data; [done|].
    by eapply get_tree_data_is_file.
  - rewrite is_file_logged. by eapply generate_entropy_data_is_file.
Qed.

Lemma get_tree_data_cached tree dd ms w x w' :
  is_file w tree = true →
  get_tree_data tree dd ms false w = (x, w') →
  fs w' = fs w ∧ ∀ td flag dt, x = inr (td, flag, dt) → flag = false.
Proof.
  intros Hf. unfold get_tree_data. unfold_monad.
  change (is_file {| fs := fs w; clock := S (clock w); log := log w |} tree)
    with (is_file w tree).
  rewrite Hf. simpl.
  destruct (read_text tree (fs w)) as [e|text]; simpl;
    [by intros [= <- <-]|].
  destruct (parse_deserialize text) as [e|td]; simpl; intros [= <- <-];
    split; try done; congruence.
Qed.

Lemma generate_entropy_data_cached ef td timeout w x w' :
  is_file w ef = true →
  generate_entropy_data ef td false timeout w = (x, w') →
  fs w' = fs w ∧ ∃ dt, x = inr (false, dt).
Proof.
  intros Hf. unfold generate_entropy_data. unfold_monad.
  change (is_file {| fs := fs w; clock := S (clock w); log := log w |} ef)
    with (is_file w ef).
  rewrite Hf. simpl. intros [= <- <-]. eauto.
Qed.

Lemma bind_any {A B} (m : M A) (k : A → M B) w y w' :
  bind m k w = (y, w') →
  (∃ e, m w = (inl e, w') ∧ y = inl e)
  ∨ (∃ x w1, m w = (inr x, w1) ∧ k x w1 = (y, w')).
Proof.
  unfold bind. destruct (m w) as [[e|x] w1]; [|by eauto].
  intros [= <- <-]. eauto.
Qed.

Lemma getitem_world {A} (key : string) (o : option A) w y w' :
  getitem key o w = (y, w') → w' = w.
Proof. destruct o; by intros [= <- <-]. Qed.

(** With [overwrite] off, a ready task writes nothing and reports no
    recomputation. *)
Lemma run_body_cached wd b item timeout w y w' :
  ready wd item w →
  run_body wd b item false timeout w = (y, w') →
  fs w' = fs w
  ∧ ∀ r, y = inr (Some r) →
         tree_overwritten r = false ∧ entropy_overwritten r = false.
Proof.
  intros (fl & dn & tn & en & Hfl & Hdn & Htn & Hen & Hd & Ht & He) H.
  unfold run_body in H. rewrite Hfl in H.
  apply bind_any in H as [(? & [=] & _)|(? & ? & [= <- <-] & H)].
  rewrite Hdn in H.
  apply bind_any in H as [(? & [=] & _)|(? & ? & [= <- <-] & H)].
  apply bind_any in H as [(? & [=] & _)|(? & ? & [= <- <-] & H)].
  rewrite Hd in H.
  apply bind_any in H as [(? & [=] & _)|(? & ? & [= <- <-] & H)].
  apply bind_any in H as [(? & [= _ <-] & ->)|(dd & ? & [= _ <-] & H)];
    [done|].
  apply bind_any in H as [(? & [=] & _)|(? & ? & [= <- <-] & H)].
  rewrite Htn in H.
  apply bind_any in H as [(? & [=] & _)|(? & ? & [= <- <-] & H)].
  apply bind_any in H as [(? & ->%getitem_world & ->)
                         |(ms & ? & [_ ->]%getitem_inr & H)]; [done|].
  apply bind_any in H as [(? & [Hfs _]%get_tree_data_cached & ->)
                         |([[td t_over] t_time] & w2 & Hg & H)]; [done..|].
  apply get_tree_data_cached in Hg as [Hfs Hflag]; [|done].
  rewrite (Hflag _ _ _ eq_refl) in H. clear Hflag.
  apply bind_any in H as [(? & [=] & _)|(? & ? & [= <- <-] & H)].
  rewrite Hen in H.
  apply bind_any in H as [(? & [=] & _)|(? & ? & [= <- <-] & H)].
  assert (He2 : is_file w2 (path wd en) = true)
    by by rewrite (is_file_same_fs _ _ _ Hfs).
  apply bind_any in H as [(? & [_ [? [=]]]%generate_entropy_data_cached & _)
                         |([e_over e_time] & w3 & Hge & H)]; [done|].
  apply generate_entropy_data_cached in Hge as [Hfs3 [dt [= -> ->]]]; [|done].
  apply bind_any in H as [(? & [=] & _)|(? & ? & [= <- <-] & [= <- <-])].
  simpl. split; [congruence|]. by intros r [= <-].
Qed.

Lemma run_cached wd b item timeout w o w' :
  ready wd item w →
  run wd b item false timeout w = (inr o, w') →
  fs w' = fs w
  ∧ ∀ r, o = Some r → tree_overwritten r = false ∧ entropy_overwritten r = false.
Proof.
  intros Hr. rewrite run_eq.
  destruct (run_body _ _ _ _ _ _) as [[e|o'] w1] eqn:Hb;
    apply run_body_cached in Hb as [Hfs Hflags];
    try (eapply ready_mono; [|done]; by intros p);
    intros [= <- <-]; split; try done.
  intros r ->. auto.
Qed.

Lemma get_tree_data_corrupt tree dd ms w text e :
  read_text tree (fs w) = inr text →
  parse_deserialize text = inl e →
  get_tree_data tree dd ms false w
    = (inl e, mkWorld (fs w) (S (clock w)) (log w)).
Proof.
  intros Hr Hd. unfold get_tree_data. unfold_monad.
  change (is_file {| fs := fs w; clock := S (clock w); log := log w |} tree)
    with (is_file w tree).
  assert (is_file w tree = true) as ->.
  { unfold is_file, read_text in *. by repeat case_match. }
  simpl. rewrite Hr. simpl. by rewrite Hd.
Qed.

(** C2. In a successful [run] the entropy step is the call of
    [generate_entropy_data] on the tree returned by [get_tree_data], with
    the flag [overwrite || tree_overwritten]; so a recomputed tree forces
    a recomputed entropy artifact, whatever [overwrite] is and whether or
    not the entropy file exists. *)
Theorem tree_recomputed_forces_entropy wd b item ow timeout w r w'
    (Hrun : run wd b item ow timeout w = (inr (Some r), w')) :
  (∃ fl tn en ms dd td w2 w3,
      files item = Some fl ∧ f_tree fl = Some tn ∧ f_entropy fl = Some en
      ∧ get_tree_data (path wd tn) dd ms ow
          (logged INFO (task_label b item +:+ ": started") w)
        = (inr (td, tree_overwritten r, tree_time r), w2)
      ∧ generate_entropy_data (path wd en) td (ow || tree_overwritten r)
                              timeout w2
        = (inr (entropy_overwritten r, entropy_time r), w3)
      ∧ fs w' = fs w3)
  ∧ (tree_overwritten r = true → entropy_overwritten r = true).
Proof.
  apply run_Some, run_body_inr in Hrun
    as (fl & dn & tn & en & ms & dd & td & t_over & t_time & e_over
        & e_time & w2 & w3 & Hfl & Hdn & Htn & Hen & Hms & Hdd & Hg & He
        & -> & [= ->]).
  simpl. split.
  - exists fl, tn, en, ms, dd, td, w2, w3. by split_and!.
  - intros ->. apply generate_entropy_data_spec in He as [-> _].
    by rewrite orb_true_r.
Qed.

(** C8 (as the code has it). With [overwrite] off, a task whose tree file
    exists but does not deserialize is not recomputed: [run] logs the
    error and returns the failure marker, and the file system is left as
    it was. *)
Theorem corrupt_tree_fails_task wd b item timeout w fl dn tn ms dd text e
    (Hfl : files item = Some fl)
    (Hdn : f_design fl = Some dn)
    (Htn : f_tree fl = Some tn)
    (Hms : majority_support item = Some ms)
    (Hdd : read_text (path wd dn) (fs w) = inr dd)
    (Htext : read_text (path wd tn) (fs w) = inr text)
    (Hbad : parse_deserialize text = inl e) :
  run wd b item false timeout w
  = (inr None,
     mkWorld (fs w) (S (clock w))
             (log w ++ [(INFO, task_label b item +:+ ": started");
                        (ERROR, task_label b item +:+ ": failed: "
                                +:+ exn_str e)])).
Proof.
  rewrite run_eq.
  set (wl := logged INFO (task_label b item +:+ ": started") w).
  assert (Hd : is_file wl (path wd dn) = true).
  { unfold is_file, read_text in *. simpl. by repeat case_match. }
  destruct (run_body _ _ _ _ _ wl) as [y w1] eqn:H.
  unfold run_body in H. rewrite Hfl in H.
  apply bind_any in H as [(? & [=] & _)|(? & ? & [= <- <-] & H)].
  rewrite Hdn in H.
  apply bind_any in H as [(? & [=] & _)|(? & ? & [= <- <-] & H)].
  apply bind_any in H as [(? & [=] & _)|(? & ? & [= <- <-] & H)].
  rewrite Hd in H.
  apply bind_any in H as [(? & [=] & _)|(? & ? & [= <- <-] & H)].
  apply bind_any in H as [(? & [= Hx _] & _)|(dd' & ? & [= Hx <-] & H)];
    [simpl in Hx; congruence|].
  assert (dd' = dd) as -> by (simpl in Hx; congruence).
  apply bind_any in H as [(? & [=] & _)|(? & ? & [= <- <-] & H)].
  rewrite Htn in H.
  apply bind_any in H as [(? & [=] & _)|(? & ? & [= <- <-] & H)].
  rewrite Hms in H.
  apply bind_any in H as [(? & [=] & _)|(? & ? & [= <- <-] & H)].
  pose proof (get_tree_data_corrupt (path wd tn) dd ms wl text e Htext Hbad)
    as Hg.
  apply bind_any in H as [(? & Hg' & ->)|(? & ? & Hg' & _)];
    rewrite Hg in Hg'; [|discriminate Hg'].
  injection Hg' as <- <-.
  unfold logged; simpl. by rewrite <- app_assoc.
Qed.

End TaskRunner.

(** ** The pool and the driver *)

Section Pool.
Context `{L : Landauer} `{T : Timer}.
Implicit Types (tasks : list task) (sched : list nat) (w : world).

Lemma run_task_total (t : task) w : ∃ o w', run_task t w = (inr o, w').
Proof. destruct t as [[[[wd b] item] ow] timeout]. apply run_total. Qed.

Lemma grows_run_task (t : task) : grows (run_task t).
Proof. destruct t as [[[[wd b] item] ow] timeout]. apply grows_run. Qed.

Lemma run_task_Some_ident (t : task) w r w' :
  run_task t w = (inr (Some r), w') → row_ident r = task_ident t.
Proof. destruct t as [[[[wd b] item] ow] timeout]. apply run_Some_ident. Qed.

(** The pool returns, and keeps whatever every task keeps. *)
Lemma pool_execute_invariant (P : world → Prop) tasks :
  (∀ t w o w', t ∈ tasks → P w → run_task t w = (inr o, w') → P w') →
  ∀ sched result w,
    P w →
    ∃ res w', pool_execute tasks sched result w = (inr res, w')
              ∧ P w' ∧ length res = length result.
Proof.
  intros Hstep sched. induction sched as [|i sched IH]; intros result w HP.
  - by exists result, w.
  - simpl. destruct (tasks !! i) as [t|] eqn:Hi; [|by apply IH].
    destruct (run_task_total t w) as (o & w1 & Hrun).
    unfold bind. rewrite Hrun.
    destruct (IH (<[i:=o]> result) w1) as (res & w' & Hres & HP' & Hlen).
    { eapply Hstep; [|done..]. by eapply list_elem_of_lookup_2. }
    exists res, w'. by rewrite Hres, Hlen, length_insert.
Qed.

(** Under a schedule without repetition, the slot of every scheduled task
    holds what [run] returned for it, and what was established for a task
    when it finished still holds at the end if the later tasks keep it. *)
Lemma pool_execute_results (P : world → Prop)
    (Q : task → option row → world → Prop) tasks :
  (∀ t w o w', t ∈ tasks → P w → run_task t w = (inr o, w') →
               P w' ∧ Q t o w') →
  (∀ t o t' w o' w', t' ∈ tasks → P w → Q t o w →
                     run_task t' w = (inr o', w') → Q t o w') →
  ∀ sched result w,
    NoDup sched → P w → length result = length tasks →
    ∃ res w', pool_execute tasks sched result w = (inr res, w')
      ∧ P w' ∧ length res = length tasks
      ∧ (∀ i, i ∉ sched → res !! i = result !! i)
      ∧ (∀ i t, i ∈ sched → tasks !! i = Some t →
                ∃ o, res !! i = Some o ∧ Q t o w').
Proof.
  intros Hstep Hmono sched.
  induction sched as [|i sched IH]; intros result w Hnd HP Hlen.
  - exists result, w. split_and!; try done. by intros i t ?%elem_of_nil.
  - apply NoDup_cons in Hnd as [Hi Hnd]. simpl.
    destruct (tasks !! i) as [t|] eqn:Ht.
    + destruct (run_task_total t w) as (o & w1 & Hrun).
      unfold bind. rewrite Hrun.
      assert (Hin : t ∈ tasks) by by eapply list_elem_of_lookup_2.
      destruct (Hstep _ _ _ _ Hin HP Hrun) as [HP1 HQ1].
      destruct (IH (<[i:=o]> result) w1) as (res & w' & Hres & HP' & Hlen' & Hout & Hin');
        [done|done|by rewrite length_insert|].
      exists res, w'. split_and!; try done.
      * intros j Hj. rewrite Hout by set_solver.
        apply list_lookup_insert_ne. set_solver.
      * intros j t' [->|Hj]%elem_of_cons Ht'; [|by eauto].
        assert (t' = t) as -> by congruence.
        exists o. split.
        { rewrite Hout by done. apply list_lookup_insert_eq.
          rewrite Hlen. by eapply lookup_lt_Some. }
        destruct (pool_execute_invariant (fun w => P w ∧ Q t o w) tasks)
          with (sched := sched) (result := <[i:=o]> result) (w := w1)
          as (res2 & w2 & Hres2 & [_ HQ2] & _); [|done|congruence].
        intros t2 wa o2 wb Hin2 [HPa HQa] Hrun2. split.
        -- by eapply Hstep.
        -- by eapply Hmono.
    + destruct (IH result w) as (res & w' & Hres & HP' & Hlen' & Hout & Hin');
        [done..|].
      exists res, w'. split_and!; try done.
      * intros j Hj. apply Hout. set_solver.
      * intros j t' [->|Hj]%elem_of_cons Ht'; [congruence|by eauto].
Qed.

Lemma main_eq (a : args) sched w :
  main a sched w =
  match starmap (tasks_of a (selection (universe (benchmarks a))
                                       (accept a) (ignore a))) sched w with
  | (inr result, w') => (inr (mkDataFrame report_columns (omap id result)), w')
  | (inl e, w') => (inl e, w')
  end.
Proof. reflexivity. Qed.

Lemma schedule_complete sched n :
  sched ≡ₚ seq 0 n → NoDup sched ∧ ∀ i, i ∈ sched ↔ (i < n)%nat.
Proof.
  intros HP. split.
  - rewrite HP. apply NoDup_seq.
  - intros i. rewrite HP, elem_of_seq. lia.
Qed.

(** Every task is run once under a complete schedule; the result list is
    indexed like the task list. *)
Lemma starmap_results (P : world → Prop)
    (Q : task → option row → world → Prop) tasks sched w :
  (∀ t w o w', t ∈ tasks → P w → run_task t w = (inr o, w') →
               P w' ∧ Q t o w') →
  (∀ t o t' w o' w', t' ∈ tasks → P w → Q t o w →
                     run_task t' w = (inr o', w') → Q t o w') →
  sched ≡ₚ seq 0 (length tasks) → P w →
  ∃ res w', starmap tasks sched w = (inr res, w')
    ∧ P w' ∧ Forall2 (fun t o => Q t o w') tasks res.
Proof.
  intros Hstep Hmono [Hnd Hall]%schedule_complete HP.
  destruct (pool_execute_results P Q tasks Hstep Hmono sched
              (replicate (length tasks) None) w)
    as (res & w' & Hres & HP' & Hlen & _ & Hin);
    [done|done|by rewrite length_replicate|].
  exists res, w'. split_and!; try done.
  apply Forall2_same_length_lookup_2; [done|].
  intros i t o Ht Ho.
  destruct (Hin i t) as (o' & Ho' & HQ); [|done|congruence].
  apply Hall. by eapply lookup_lt_Some.
Qed.

Lemma omap_id_sublist tasks (res : list (option row)) :
  Forall2 (fun t o => ∀ r, o = Some r → row_ident r = task_ident t) tasks res →
  row_ident <$> omap id res `sublist_of` task_ident <$> tasks.
Proof.
  induction 1 as [|t o tasks res Ho _ IH]; [done|].
  destruct o as [r|]; simpl.
  - rewrite (Ho r eq_refl). by apply sublist_skip.
  - by apply sublist_cons.
Qed.

End Pool.

(** ** The task list *)

Section Tasks.
Implicit Types (a : args) (sel : gset ident).


(** The identities of the task list are those of the description, in its
    order, that are selected. *)
Lemma task_ident_tasks_of a sel :
  task_ident <$> tasks_of a sel
  = filter (fun x => x ∈ sel) (identities (benchmarks a)).
Proof.
  unfold tasks_of, identities.
  induction (benchmarks a) as [|bm bs IH]; [done|].
  rewrite !bind_cons, fmap_app, filter_app, IH. f_equal.
  induction (b_list bm) as [|item items IHi]; [done|].
  rewrite !bind_cons, fmap_app, filter_app, IHi. f_equal.
  rewrite filter_cons, filter_nil. by case_bool_decide; case_decide.
Qed.

Lemma tasks_of_rerun a sel :
  tasks_of (rerun a) sel = without_overwrite <$> tasks_of a sel.
Proof.
  unfold tasks_of; simpl.
  change (working_directory_of (rerun a)) with (working_directory_of a).
  induction (benchmarks a) as [|bm bs IH]; [done|].
  rewrite !bind_cons, fmap_app, IH. f_equal.
  induction (b_list bm) as [|item items IHi]; [done|].
  rewrite !bind_cons, fmap_app, IHi. f_equal.
  by case_bool_decide.
Qed.

Lemma selection_Permutation (U : gset ident) acc acc' ign ign' :
  option_Forall2 (≡ₚ) acc acc' → option_Forall2 (≡ₚ) ign ign' →
  selection U acc' ign' = selection U acc ign.
Proof.
  intros Ha Hi. unfold selection.
  destruct Ha as [ra ra' Ha|], Hi as [ri ri' Hi|];
    by rewrite ?(apply_rules_Permutation _ _ _ Ha),
               ?(apply_rules_Permutation _ _ _ Hi).
Qed.

Lemma task_artifacts_sublist a sel :
  tasks_of a sel ≫= task_artifacts `sublist_of` description_artifacts a.
Proof.
  unfold tasks_of, description_artifacts.
  induction (benchmarks a) as [|bm bs IH]; [done|].
  rewrite !bind_cons, bind_app. apply sublist_app; [|done].
  induction (b_list bm) as [|item items IHi]; [done|].
  rewrite !bind_cons, bind_app. apply sublist_app; [|done].
  case_bool_decide; simpl; [by rewrite app_nil_r|apply sublist_nil_l].
Qed.

End Tasks.

(** ** Properties of a whole invocation *)

Section Driver.
Context `{L : Landauer} `{T : Timer}.
Implicit Types (a : args) (w : world) (sched : list nat).

Lemma starmap_ran (tasks : list task) sched w :
  sched ≡ₚ seq 0 (length tasks) →
  ∃ res w', starmap tasks sched w = (inr res, w')
            ∧ Forall2 ran tasks res.
Proof.
  intros Hs.
  destruct (starmap_results (fun _ => True) (fun t o _ => ran t o)
              tasks sched w) as (res & w' & Hres & _ & HF); try done.
  - intros t w1 o w2 _ _ Hrun. split; [done|]. by exists w1, w2.
  - eauto.
Qed.

Lemma ran_Some_ident (t : task) r : ran t (Some r) → row_ident r = task_ident t.
Proof. intros (w & w' & H). by eapply run_task_Some_ident. Qed.

(** C1. An exception raised inside the [try] block of [run] does not
    leave it: [run] logs an error line made of the task's label and the
    message, and returns the failure marker. The pool therefore never
    sees an exception: under any complete schedule every task of the
    list, its siblings included, has the value its own [run] returned. *)
Theorem run_contains_exceptions wd b item ow timeout w e w1
    (Hraise : run_body wd b item ow timeout
                (logged INFO (task_label b item +:+ ": started") w)
              = (inl e, w1)) :
  run wd b item ow timeout w
  = (inr None,
     logged ERROR (task_label b item +:+ ": failed: " +:+ exn_str e) w1)
  ∧ ∀ (tasks : list task) sched w0,
      sched ≡ₚ seq 0 (length tasks) →
      ∃ res w0', starmap tasks sched w0 = (inr res, w0')
                 ∧ Forall2 ran tasks res.
Proof.
  split; [by rewrite run_eq, Hraise|]. intros. by apply starmap_ran.
Qed.

(** C7. The report has the six columns and its rows are the results of
    the pool that are not the failure marker, in the order of the task
    list: the result list is indexed like the task list whatever the
    order in which the tasks finish, and a row carries the identity of
    the task at its index. *)
Theorem report_rows_in_submission_order a sched w
    (Hsched : sched ≡ₚ seq 0 (length (tasks_of a
                (selection (universe (benchmarks a)) (accept a) (ignore a))))) :
  let tasks := tasks_of a (selection (universe (benchmarks a))
                                     (accept a) (ignore a)) in
  ∃ result df w',
    main a sched w = (inr df, w')
    ∧ columns df = ["benchmark"; "name"; "tree_overwritten"; "tree_time";
                    "entropy_overwritten"; "entropy_time"]
    ∧ rows df = omap id result
    ∧ Forall2 (fun t o => ran t o
                 ∧ ∀ r, o = Some r → row_ident r = task_ident t) tasks result
    ∧ row_ident <$> rows df `sublist_of` task_ident <$> tasks.
Proof.
  intros tasks.
  destruct (starmap_ran tasks sched w Hsched) as (res & w' & Hres & HF).
  assert (HF' : Forall2 (fun t o => ran t o
                 ∧ ∀ r, o = Some r → row_ident r = task_ident t) tasks res).
  { eapply Forall2_impl; [done|]. intros t o Hran. split; [done|].
    intros r ->. by apply ran_Some_ident. }
  exists res, (mkDataFrame report_columns (omap id res)), w'.
  rewrite main_eq. fold tasks. rewrite Hres. split_and!; try done.
  apply omap_id_sublist. eapply Forall2_impl; [done|]. by intros t o [_ ?].
Qed.

(** C10. The identities of the dispatched tasks are the selected
    identities of the description, in the order of the description;
    reordering the accept or the ignore rules changes neither the task
    list nor the report; and the identities of the report rows are a
    subsequence of the description's. *)
Theorem tasks_follow_description a acc' ign' sched w
    (Hacc : option_Forall2 (≡ₚ) (accept a) acc')
    (Hign : option_Forall2 (≡ₚ) (ignore a) ign')
    (Hsched : sched ≡ₚ seq 0 (length (tasks_of a
                (selection (universe (benchmarks a)) (accept a) (ignore a))))) :
  let sel := selection (universe (benchmarks a)) (accept a) (ignore a) in
  task_ident <$> tasks_of a sel
  = filter (fun x => x ∈ sel) (identities (benchmarks a))
  ∧ tasks_of (with_rules a acc' ign')
             (selection (universe (benchmarks a)) acc' ign')
    = tasks_of a sel
  ∧ main (with_rules a acc' ign') sched w = main a sched w
  ∧ ∃ df w', main a sched w = (inr df, w')
             ∧ row_ident <$> rows df
               `sublist_of` filter (fun x => x ∈ sel)
                                   (identities (benchmarks a)).
Proof.
  intros sel. split_and!.
  - apply task_ident_tasks_of.
  - by rewrite (selection_Permutation _ _ _ _ _ Hacc Hign).
  - rewrite !main_eq. simpl.
    by rewrite (selection_Permutation _ _ _ _ _ Hacc Hign).
  - destruct (starmap_ran (tasks_of a sel) sched w Hsched)
      as (res & w' & Hres & HF).
    exists (mkDataFrame report_columns (omap id res)), w'.
    rewrite main_eq. fold sel. rewrite Hres. split; [done|].
    rewrite <- task_ident_tasks_of. apply omap_id_sublist.
    eapply Forall2_impl; [done|]. intros t o Hran r ->.
    by apply ran_Some_ident.
Qed.

(** C9 (as the code has it). The task list repeats an identity as often
    as the description does: when the identities of the description are
    pairwise distinct, so are those of the dispatched tasks; and when the
    artifact files named by the description are pairwise distinct, no two
    dispatched tasks write the same file. *)
Theorem task_identities_unique a
    (Hids : NoDup (identities (benchmarks a)))
    (Hpaths : NoDup (description_artifacts a)) :
  let tasks := tasks_of a (selection (universe (benchmarks a))
                                     (accept a) (ignore a)) in
  NoDup (task_ident <$> tasks) ∧ NoDup (tasks ≫= task_artifacts).
Proof.
  intros tasks. split.
  - unfold tasks. rewrite task_ident_tasks_of. by apply NoDup_filter.
  - eapply sublist_NoDup; [exact Hpaths|]. apply task_artifacts_sublist.
Qed.

Lemma omap_id_length_le {A} (l : list (option A)) :
  (length (omap id l) ≤ length l)%nat.
Proof.
  induction l as [|[x|] l IH]; simpl; [lia|..];
    change (list_omap _ _ id l) with (omap id l); lia.
Qed.

Lemma omap_id_all_Some {A} (l : list (option A)) :
  length (omap id l) = length l → Forall is_Some l.
Proof.
  induction l as [|[x|] l IH]; simpl; intros Hlen.
  - constructor.
  - constructor; [by exists x|]. apply IH.
    change (list_omap _ _ id l) with (omap id l) in Hlen. lia.
  - pose proof (omap_id_length_le l).
    change (list_omap _ _ id l) with (omap id l) in Hlen. lia.
Qed.

(** C4. After a first invocation in which every dispatched task
    succeeded, a second invocation on the same description and rules
    without [--overwrite] changes no file, and every row of its report has
    both flags [false], whatever the order in which the tasks finish. *)
Theorem second_run_recomputes_nothing a sched1 sched2 w0 df1 w1
    (Hsched1 : sched1 ≡ₚ seq 0 (length (tasks_of a
                 (selection (universe (benchmarks a)) (accept a) (ignore a)))))
    (Hsched2 : sched2 ≡ₚ seq 0 (length (tasks_of a
                 (selection (universe (benchmarks a)) (accept a) (ignore a)))))
    (Hfirst : main a sched1 w0 = (inr df1, w1))
    (Hsucceeded : length (rows df1) = length (tasks_of a
                 (selection (universe (benchmarks a)) (accept a) (ignore a)))) :
  ∃ df2 w2,
    main (rerun a) sched2 w1 = (inr df2, w2)
    ∧ fs w2 = fs w1
    ∧ Forall (fun r => tree_overwritten r = false
                       ∧ entropy_overwritten r = false) (rows df2).
Proof.
  set (sel := selection (universe (benchmarks a)) (accept a) (ignore a)) in *.
  set (tasks := tasks_of a sel) in *.
  (* the first invocation leaves every task ready *)
  destruct (starmap_results (fun _ => True)
              (fun t o w => ∀ r, o = Some r → task_ready t w)
              tasks sched1 w0) as (res1 & w1' & Hres1 & _ & HF1); try done.
  { intros [[[[wd b] item] ow] timeout] wa o wb _ _ Hrun.
    split; [done|]. intros r ->. by eapply run_Some_ready. }
  { intros [[[[wd b] item] ow] timeout] o t' wa o' wb _ _ HQ Hrun r ->.
    eapply ready_mono; [by eapply grows_run_task|by eapply HQ]. }
  rewrite main_eq in Hfirst. fold sel tasks in Hfirst.
  rewrite Hres1 in Hfirst. injection Hfirst as <- <-. simpl in Hsucceeded.
  assert (Hready : ∀ t, t ∈ tasks → task_ready t w1').
  { intros t [i Hi]%list_elem_of_lookup_1.
    destruct (Forall2_lookup_l _ _ _ _ _ HF1 Hi) as (o & Ho & HQ).
    rewrite (Forall2_length _ _ _ HF1) in Hsucceeded.
    apply omap_id_all_Some in Hsucceeded.
    rewrite Forall_lookup in Hsucceeded.
    destruct (Hsucceeded _ _ Ho) as [r ->]. by eapply HQ. }
  (* the second one finds every artifact in place *)
  set (tasks2 := tasks_of (rerun a) sel).
  assert (Htasks2 : tasks2 = without_overwrite <$> tasks)
    by apply tasks_of_rerun.
  destruct (starmap_results (fun w => fs w = fs w1')
              (fun t o _ => ∀ r, o = Some r →
                 tree_overwritten r = false ∧ entropy_overwritten r = false)
              tasks2 sched2 w1') as (res2 & w2 & Hres2 & Hfs & HF2); try done.
  { intros t wa o wb Ht Hfsa Hrun.
    rewrite Htasks2 in Ht. apply list_elem_of_fmap in Ht as (t0 & -> & Ht0).
    specialize (Hready _ Ht0).
    destruct t0 as [[[[wd b] item] ow] timeout]. simpl in *.
    apply run_cached in Hrun as [Hfsb Hflags]; [split; [congruence|done]|].
    eapply ready_mono; [|done].
    intros p. by rewrite (is_file_same_fs _ _ _ Hfsa). }
  { by rewrite Htasks2, length_fmap. }
  exists (mkDataFrame report_columns (omap id res2)), w2.
  rewrite main_eq. simpl. fold sel tasks2. rewrite Hres2.
  split_and!; try done. simpl.
  clear -HF2. induction HF2 as [|t o ts os Ho _ IH]; [constructor|].
  destruct o as [r|]; simpl; [constructor; auto|done].
Qed.

End Driver.

(** * Further properties of the harness *)

(** ** Paths of the artifacts *)

Section Paths.
Context `{L : Landauer} `{T : Timer}.

(** X1. [path] takes a file name that starts with a slash as it is,
    whatever the working directory, and puts any other file name under
    the working directory, so that the result is absolute as soon as the
    working directory is; and two file names of the same kind are sent
    to the same path only when [Path] already identifies them. *)
Theorem path_under_working_directory (working_directory : PurePath)
    (filename : string) :
  (if starts_with_slash filename
   then ∀ wd', path wd' filename = path working_directory filename
   else parts (path working_directory filename)
        = (parts working_directory ++ parts (Path filename))%list)
  ∧ is_absolute (path working_directory filename)
    = starts_with_slash filename || is_absolute working_directory
  ∧ ∀ other, starts_with_slash other = starts_with_slash filename →
             (path working_directory other = path working_directory filename
              ↔ Path other = Path filename).
Proof.
  unfold path, is_absolute, joinpath, Path; simpl.
  destruct (starts_with_slash filename); (split_and!; [done..|]);
    intros other ->; [done|].
  split; [|by intros [= ->]]. by intros [= ->%app_inv_head].
Qed.

End Paths.

(** ** Rules *)

Section RuleAlgebra.
Implicit Types (U V : gset ident) (rules : list rule) (x : ident).

(** X2. [apply_rules] filters the collection by the union of its rules:
    it distributes over the concatenation of rule lists and over the
    union of collections, applying the same rules twice changes nothing,
    and a rule without a list selects what the same rule with an empty
    list selects. *)
Theorem apply_rules_algebra U V rules1 rules2 (b : string) :
  apply_rules U (rules1 ++ rules2)
  = apply_rules U rules1 ∪ apply_rules U rules2
  ∧ apply_rules (U ∪ V) rules1 = apply_rules U rules1 ∪ apply_rules V rules1
  ∧ apply_rules (apply_rules U rules1) rules1 = apply_rules U rules1
  ∧ apply_rules (apply_rules U rules1) rules2
    = apply_rules U rules1 ∩ apply_rules U rules2
  ∧ apply_rules U [mkRule b None] = apply_rules U [mkRule b (Some [])].
Proof.
  split_and!; apply set_eq; intros x;
    rewrite ?elem_of_union, ?elem_of_intersection, !elem_of_apply_rules,
      ?elem_of_union, ?elem_of_apply_rules.
  - setoid_rewrite elem_of_app. naive_solver.
  - naive_solver.
  - naive_solver.
  - naive_solver.
  - setoid_rewrite list_elem_of_singleton. destruct x as [b' i].
    split; intros (? & r & -> & Hc); (split; [done|]); eexists; (split; [done|]);
      apply check_rule_true in Hc as [<- _]; apply check_rule_true; simpl; auto.
Qed.

(** X3. The selection is a part of the universe; ignore rules remove
    what they match in the universe, so that an identity matched by an
    accept rule and by an ignore rule is not selected; and accept rules
    add up while ignore rules intersect. *)
Theorem selection_composition U (acc1 acc2 ign1 ign2 : list rule)
    (acc ign : option (list rule)) :
  selection U acc ign ⊆ U
  ∧ selection U acc (Some ign1) = selection U acc None ∖ apply_rules U ign1
  ∧ selection U (Some acc1) (Some ign1)
    = apply_rules U acc1 ∖ apply_rules U ign1
  ∧ selection U (Some (acc1 ++ acc2)%list) ign
    = selection U (Some acc1) ign ∪ selection U (Some acc2) ign
  ∧ selection U acc (Some (ign1 ++ ign2)%list)
    = selection U acc (Some ign1) ∩ selection U acc (Some ign2).
Proof.
  split_and!; [intros x|apply set_eq; intros x..];
    rewrite ?elem_of_union, ?elem_of_intersection, ?elem_of_difference,
      ?elem_of_selection, ?elem_of_apply_rules.
  - tauto.
  - destruct acc; naive_solver.
  - naive_solver.
  - setoid_rewrite elem_of_app. destruct ign; naive_solver.
  - setoid_rewrite elem_of_app. destruct acc; naive_solver.
Qed.

End RuleAlgebra.

(** ** The cache steps when the landauer package fails *)

Section CacheFailures.
Context `{L : Landauer} `{T : Timer}.

Lemma open_w_inr p f f' :
  open_w p f = inr f' → f' = <[p := File EmptyString]> f ∧ parts p ≠ [].
Proof.
  unfold open_w, stat, parent. destruct p as [a [|c l]]; simpl.
  - done.
  - intros H. split; [|done]. by repeat case_match; simplify_eq.
Qed.

Lemma mkdirs_frame a pre rest f f' q :
  mkdirs a pre rest f = inr f' →
  f' !! q = f !! q ∨ (f !! q = None ∧ f' !! q = Some Dir).
Proof.
  revert pre f. induction rest as [|c rest IH]; intros pre f; simpl.
  - intros [= ->]. by left.
  - destruct (f !! mkPath a (pre ++ [c])) as [[s|]|] eqn:Hp; [done|exact (IH _ _)|].
    intros [Hq|[Hq1 Hq2]]%IH.
    + destruct (decide (q = mkPath a (pre ++ [c]))) as [->|Hne].
      * rewrite lookup_insert_eq in Hq. by right.
      * rewrite lookup_insert_ne in Hq by done. by left.
    + right. split; [|done].
      apply lookup_insert_None in Hq1. tauto.
Qed.

Lemma mkdirs_deeper a pre rest f f' q :
  mkdirs a pre rest f = inr f' →
  (length pre + length rest < length (parts q))%nat →
  f' !! q = f !! q.
Proof.
  revert pre f. induction rest as [|c rest IH]; intros pre f; simpl.
  - by intros [= ->].
  - intros H Hlen.
    assert (Hlen' : (length (pre ++ [c]) + length rest < length (parts q))%nat).
    { rewrite length_app. simpl. lia. }
    assert (Hne : mkPath a (pre ++ [c]) ≠ q).
    { intros <-. simpl in Hlen'. lia. }
    destruct (f !! mkPath a (pre ++ [c])) as [[s|]|] eqn:Hp; [done|by eapply IH|].
    rewrite (IH _ _ H Hlen'). by rewrite lookup_insert_ne.
Qed.

Lemma mkdir_parents_parent p f f' :
  mkdir_parents (parent p) f = inr f' → f' !! p = f !! p.
Proof.
  unfold mkdir_parents, parent. cbn [anchored parts]. intros H.
  destruct (decide (parts p = [])) as [Hp|Hp].
  - rewrite Hp in H. simpl in H. by simplify_eq.
  - eapply mkdirs_deeper; [done|].
    rewrite removelast_firstn_len, length_take. simpl.
    destruct (parts p); [done|]. simpl. lia.
Qed.




Lemma keeps_outside_same_fs Ps w w' : fs w' = fs w → keeps_outside Ps w w'.
Proof. intros E p _. left. by rewrite E. Qed.

Lemma is_file_insert p text f c l :
  parts p ≠ [] →
  is_file (mkWorld (<[p := File text]> f) c l) p = true.
Proof.
  intros Hp. unfold is_file, stat; simpl.
  destruct (parts p); [done|]. by rewrite lookup_insert_eq.
Qed.

Lemma get_tree_data_hit tree dd ms w :
  is_file w tree = true →
  get_tree_data tree dd ms false w
  = match fs w !! tree with
    | Some (File text) =>
        match parse_deserialize text with
        | inr td =>
            (inr (td, false,
                  default_timer (S (clock w)) - default_timer (clock w)),
             mkWorld (fs w) (S (S (clock w))) (log w))
        | inl e => (inl e, mkWorld (fs w) (S (clock w)) (log w))
        end
    | _ => (inl (OSError "No such file or directory"),
            mkWorld (fs w) (S (clock w)) (log w))
    end.
Proof.
  intros Hf. unfold get_tree_data. unfold_monad.
  change (is_file {| fs := fs w; clock := S (clock w); log := log w |} tree)
    with (is_file w tree).
  rewrite Hf. simpl. unfold is_file, read_text, stat in *.
  destruct (parts tree); [done|].
  destruct (fs w !! tree) as [[text|]|]; try done.
  simpl. by destruct (parse_deserialize text).
Qed.

(** X4. When the parser rejects the design, [get_tree_data] raises
    without opening the tree file: a tree file that was there (the step
    ran because of [overwrite]) keeps its content, none is created, and
    the rest of the file system is as before but for the directories
    that may have been made. *)
Theorem failed_parse_keeps_tree_file (tree : PurePath) (design_data : string)
    (majority_support overwrite : bool) (w : world) (e : exn)
    (Hstep : overwrite || negb (is_file w tree) = true)
    (Hparse : parse_parse design_data majority_support = inl e) :
  ∃ e' w',
    get_tree_data tree design_data majority_support overwrite w = (inl e', w')
    ∧ fs w' !! tree = fs w !! tree
    ∧ keeps_outside (fun _ => False) w w'.
Proof.
  unfold get_tree_data. unfold_monad.
  change (is_file {| fs := fs w; clock := S (clock w); log := log w |} tree)
    with (is_file w tree).
  rewrite Hstep. cbn [fs clock log].
  destruct (mkdir_parents (parent tree) (fs w)) as [e1|f1] eqn:Hm; simpl.
  - eexists _, _. split; [done|]. split; [done|]. by apply keeps_outside_same_fs.
  - rewrite Hparse. simpl. eexists _, _. split; [done|]. simpl. split.
    + by eapply mkdir_parents_parent.
    + intros q _. simpl. by eapply mkdirs_frame.
Qed.

(** X5. When [parse.serialize] raises, the tree file has already been
    opened for writing: [get_tree_data] leaves it in place and empty.
    The next call without [overwrite] finds a file, so it does not
    recompute: it deserializes the empty text, whatever the design is. *)
Theorem failed_serialize_leaves_empty_tree (tree : PurePath)
    (design_data : string) (majority_support overwrite : bool) (w : world)
    (f1 f2 : gmap PurePath node) (tree_data : tree_t) (e : exn)
    (Hstep : overwrite || negb (is_file w tree) = true)
    (Hdirs : mkdir_parents (parent tree) (fs w) = inr f1)
    (Hparse : parse_parse design_data majority_support = inr tree_data)
    (Hopen : open_w tree f1 = inr f2)
    (Hser : parse_serialize tree_data = inl e) :
  let w1 := mkWorld (<[tree := File EmptyString]> f1) (S (clock w)) (log w) in
  get_tree_data tree design_data majority_support overwrite w = (inl e, w1)
  ∧ ∀ design_data' majority_support',
      get_tree_data tree design_data' majority_support' false w1
      = match parse_deserialize EmptyString with
        | inr td =>
            (inr (td, false,
                  default_timer (S (clock w1)) - default_timer (clock w1)),
             mkWorld (fs w1) (S (S (clock w1))) (log w1))
        | inl e' => (inl e', mkWorld (fs w1) (S (clock w1)) (log w1))
        end.
Proof.
  intros w1. apply open_w_inr in Hopen as Hopen'. destruct Hopen' as [-> Hp].
  split.
  - unfold get_tree_data. unfold_monad.
    change (is_file {| fs := fs w; clock := S (clock w); log := log w |} tree)
      with (is_file w tree).
    rewrite Hstep. cbn [fs clock log]. rewrite Hdirs. simpl.
    rewrite Hparse. simpl. rewrite Hopen. simpl. by rewrite Hser.
  - intros dd' ms'. rewrite get_tree_data_hit by by apply is_file_insert.
    unfold w1. cbn [fs]. by rewrite lookup_insert_eq.
Qed.

(** X6. When [entropy.serialize] raises, [generate_entropy_data] leaves
    the entropy file in place and empty. The next call without
    [overwrite] finds a file and reports the step as done, without
    recomputing and without reading the file. *)
Theorem failed_serialize_leaves_empty_entropy (entropy_file : PurePath)
    (tree_data : tree_t) (overwrite : bool) (timeout : Z) (w : world)
    (f1 f2 : gmap PurePath node) (entropy_data : entropy_t) (e : exn)
    (Hstep : overwrite || negb (is_file w entropy_file) = true)
    (Hdirs : mkdir_parents (parent entropy_file) (fs w) = inr f1)
    (Hentropy : entropy_entropy tree_data timeout = inr entropy_data)
    (Hopen : open_w entropy_file f1 = inr f2)
    (Hser : entropy_serialize entropy_data = inl e) :
  let w1 := mkWorld (<[entropy_file := File EmptyString]> f1)
                    (S (clock w)) (log w) in
  generate_entropy_data entropy_file tree_data overwrite timeout w
  = (inl e, w1)
  ∧ ∀ tree_data' timeout',
      generate_entropy_data entropy_file tree_data' false timeout' w1
      = (inr (false, default_timer (S (clock w1)) - default_timer (clock w1)),
         mkWorld (fs w1) (S (S (clock w1))) (log w1)).
Proof.
  intros w1. apply open_w_inr in Hopen as Hopen'. destruct Hopen' as [-> Hp].
  split.
  - unfold generate_entropy_data. unfold_monad.
    change (is_file {| fs := fs w; clock := S (clock w); log := log w |}
                    entropy_file)
      with (is_file w entropy_file).
    rewrite Hstep. cbn [fs clock log]. rewrite Hdirs. simpl.
    rewrite Hentropy. simpl. rewrite Hopen. simpl. by rewrite Hser.
  - intros td' timeout'. apply generate_entropy_data_spec. unfold w1.
    by rewrite (is_file_insert _ _ _ _ _ Hp).
Qed.

(** X7. A tree that [get_tree_data] has just computed and written is
    the one a later call without [overwrite] returns, provided the
    serialized text deserializes to it; the later call looks neither at
    the design nor at [majority_support], and writes nothing. *)
Theorem tree_round_trip (tree : PurePath) (design_data : string)
    (majority_support overwrite : bool) (w w1 : world) (tree_data : tree_t)
    (elapsed : Z) (text : string)
    (Hfirst : get_tree_data tree design_data majority_support overwrite w
              = (inr (tree_data, true, elapsed), w1))
    (Hser : parse_serialize tree_data = inr text)
    (Hround : parse_deserialize text = inr tree_data) :
  fs w1 !! tree = Some (File text)
  ∧ ∀ design_data' majority_support',
      get_tree_data tree design_data' majority_support' false w1
      = (inr (tree_data, false,
              default_timer (S (clock w1)) - default_timer (clock w1)),
         mkWorld (fs w1) (S (S (clock w1))) (log w1)).
Proof.
  apply get_tree_data_inr in Hfirst
    as (_ & _ & f1 & text' & _ & _ & [_ Hp]%open_w_inr & Hser' & ->).
  assert (text' = text) as -> by congruence.
  split; [by apply lookup_insert_eq|].
  intros dd' ms'. rewrite get_tree_data_hit by by apply is_file_insert.
  cbn [fs]. by rewrite lookup_insert_eq, Hround.
Qed.

End CacheFailures.


Lemma failed_parse_keeps_tree_file_witness :
  true || negb (is_file Demo.w_corrupt Demo.tree_x) = true
  ∧ @parse_parse Demo.toy EmptyString true = inl (LandauerError "empty design")
  ∧ ∃ e' w',
      @get_tree_data Demo.toy Demo.ticks Demo.tree_x EmptyString true true
                     Demo.w_corrupt = (inl e', w')
      ∧ fs w' !! Demo.tree_x = fs Demo.w_corrupt !! Demo.tree_x
      ∧ keeps_outside (fun _ => False) Demo.w_corrupt w'.
Proof.
  split; [reflexivity|]. split; [reflexivity|].
  apply (@failed_parse_keeps_tree_file Demo.toy Demo.ticks Demo.tree_x
           EmptyString true true Demo.w_corrupt (LandauerError "empty design"));
    reflexivity.
Defined.

Lemma failed_serialize_leaves_empty_tree_witness :
  let w := Demo.w0 in
  let f1 := <[mkPath true ["bench"; "out"] := Dir]> (fs w) in
  let w1 := mkWorld (<[Demo.tree_y := File EmptyString]> f1) 1 [] in
  @parse_serialize Demo.brittle "module y"
  = inl (LandauerError "unserializable tree")
  ∧ @get_tree_data Demo.brittle Demo.ticks Demo.tree_y "module y" false false w
    = (inl (LandauerError "unserializable tree"), w1)
  ∧ @get_tree_data Demo.brittle Demo.ticks Demo.tree_y "module y" false false w1
    = (inl (LandauerError "malformed tree"), mkWorld (fs w1) 2 []).
Proof.
  intros w f1 w1. split; [reflexivity|].
  pose proof (@failed_serialize_leaves_empty_tree Demo.brittle Demo.ticks
    Demo.tree_y "module y" false false w f1
    (<[Demo.tree_y := File EmptyString]> f1) "module y"
    (LandauerError "unserializable tree")) as H.
  destruct H as [H1 H2]; [reflexivity..|].
  split; [exact H1|exact (H2 "module y" false)].
Defined.

Lemma failed_serialize_leaves_empty_entropy_witness :
  let w := Demo.w_corrupt in
  let w1 := mkWorld (<[Demo.entropy_x := File EmptyString]> (fs w)) 1 [] in
  @entropy_serialize Demo.brittle "H(module x)"
  = inl (LandauerError "unserializable entropy")
  ∧ @generate_entropy_data Demo.brittle Demo.ticks Demo.entropy_x "module x"
      false 0 w
    = (inl (LandauerError "unserializable entropy"), w1)
  ∧ @generate_entropy_data Demo.brittle Demo.ticks Demo.entropy_x "module x"
      false 0 w1
    = (inr (false, 10), mkWorld (fs w1) 3 []).
Proof.
  intros w w1. split; [reflexivity|].
  pose proof (@failed_serialize_leaves_empty_entropy Demo.brittle Demo.ticks
    Demo.entropy_x "module x" false 0 w (fs w)
    (<[Demo.entropy_x := File EmptyString]> (fs w)) "H(module x)"
    (LandauerError "unserializable entropy")) as H.
  destruct H as [H1 H2]; [reflexivity..|].
  split; [exact H1|exact (H2 "module x" 0)].
Defined.

Lemma tree_round_trip_witness :
  let w1 := (@get_tree_data Demo.toy Demo.ticks Demo.tree_x "module x" true
               false Demo.w0).2 in
  @get_tree_data Demo.toy Demo.ticks Demo.tree_x "module x" true false Demo.w0
  = (inr ("module x", true, 10), w1)
  ∧ fs w1 !! Demo.tree_x = Some (File "tree:module x")
  ∧ @get_tree_data Demo.toy Demo.ticks Demo.tree_x "changed" false false w1
    = (inr ("module x", false, 10), mkWorld (fs w1) 4 []).
Proof.
  intros w1.
  assert (H0 : @get_tree_data Demo.toy Demo.ticks Demo.tree_x "module x" true
                 false Demo.w0 = (inr ("module x", true, 10), w1))
    by reflexivity.
  split; [exact H0|].
  pose proof (@tree_round_trip Demo.toy Demo.ticks Demo.tree_x "module x" true
    false Demo.w0 w1 "module x" 10 "tree:module x" H0 eq_refl eq_refl)
    as [H1 H2].
  split; [exact H1|exact (H2 "changed" false)].
Defined.

(** ** What a task does to the world *)

Section RunnerEffects.
Context `{L : Landauer} `{T : Timer}.

Lemma bind_ret_l {A B} (x : A) (k : A → M B) : bind (ret x) k = k x.
Proof. reflexivity. Qed.

Lemma bind_raise_l {A B} (e : exn) (k : A → M B) : bind (raise e) k = raise e.
Proof. reflexivity. Qed.

(** *** The file system outside the artifacts *)















(** *** The log *)









(** *** Failures before and between the cache steps *)

(** X10. A task whose design file is not there (or is not a regular
    file) fails on the assertion before anything is computed: the file
    system is untouched, the timer is not read, and the log gets the
    started line and the design-not-found error. *)
Theorem run_design_not_found (working_directory : PurePath)
    (benchmark : string) (benchmark_item : benchmark_item) (overwrite : bool)
    (timeout : Z) (w : world) (fl : files_t) (design_name : string)
    (Hfiles : files benchmark_item = Some fl)
    (Hdesign : f_design fl = Some design_name)
    (Hmissing : is_file w (path working_directory design_name) = false) :
  let label := task_label benchmark benchmark_item in
  run working_directory benchmark benchmark_item overwrite timeout w
  = (inr None,
     mkWorld (fs w) (clock w)
             (log w ++ [(INFO, label +:+ ": started");
                        (ERROR, label +:+ ": failed: " +:+ label
                                +:+ ": design not found")])).
Proof.
  intros label. rewrite run_eq. unfold run_body.
  rewrite Hfiles. cbn [getitem]. rewrite bind_ret_l.
  rewrite Hdesign. cbn [getitem]. rewrite bind_ret_l.
  unfold_monad. rewrite is_file_logged, Hmissing. simpl.
  unfold logged. simpl. by rewrite <- app_assoc.
Qed.

(** X11. A description item that lacks one of the keys read before the
    tree step makes the task fail with the [KeyError] of that key, and
    nothing is computed or written: [files] and [design] are read first,
    then, once the design has been found and read, [tree] and
    [majority_support]. *)
Theorem run_missing_key (working_directory : PurePath)
    (benchmark : string) (benchmark_item : benchmark_item) (overwrite : bool)
    (timeout : Z) (w : world) (key : string)
    (Hkey : match files benchmark_item with
            | None => key = "files"
            | Some fl =>
                match f_design fl with
                | None => key = "design"
                | Some design_name =>
                    is_file w (path working_directory design_name) = true
                    ∧ match f_tree fl with
                      | None => key = "tree"
                      | Some _ =>
                          majority_support benchmark_item = None
                          ∧ key = "majority_support"
                      end
                end
            end) :
  let label := task_label benchmark benchmark_item in
  run working_directory benchmark benchmark_item overwrite timeout w
  = (inr None,
     mkWorld (fs w) (clock w)
             (log w ++ [(INFO, label +:+ ": started");
                        (ERROR, label +:+ ": failed: '" +:+ key +:+ "'")])).
Proof.
  intros label. rewrite run_eq. unfold run_body.
  destruct (files benchmark_item) as [fl|]; cbn [getitem].
  2:{ subst key. rewrite bind_raise_l. unfold raise, logged. simpl.
      by rewrite <- app_assoc. }
  rewrite !bind_ret_l.
  destruct (f_design fl) as [dn|]; cbn [getitem].
  2:{ subst key. rewrite bind_raise_l. unfold raise, logged. simpl.
      by rewrite <- app_assoc. }
  rewrite bind_ret_l. destruct Hkey as [Hd Hkey].
  assert (∃ dd, read_text (path working_directory dn) (fs w) = inr dd)
    as [dd Hdd].
  { unfold is_file, read_text in *. repeat case_match; naive_solver. }
  unfold_monad. rewrite is_file_logged, Hd. simpl. rewrite Hdd.
  destruct (f_tree fl) as [tn|]; simpl.
  - destruct Hkey as [-> ->]. simpl. unfold logged. simpl.
    by rewrite <- app_assoc.
  - subst key. unfold logged. simpl. by rewrite <- app_assoc.
Qed.

(** X12. The [entropy] key is read only after the tree step: an item
    that lacks it still has its tree computed (or loaded) and its tree
    file in place when the task fails with the [KeyError]. *)
Theorem run_missing_entropy_key (working_directory : PurePath)
    (benchmark : string) (benchmark_item : benchmark_item) (overwrite : bool)
    (timeout : Z) (w w2 : world) (fl : files_t) (design_name tree_name : string)
    (ms : bool) (design_data : string) (tree_data : tree_t)
    (recomputed : bool) (elapsed : Z)
    (Hfiles : files benchmark_item = Some fl)
    (Hdesign : f_design fl = Some design_name)
    (Htree : f_tree fl = Some tree_name)
    (Hentropy : f_entropy fl = None)
    (Hms : majority_support benchmark_item = Some ms)
    (Hread : read_text (path working_directory design_name) (fs w)
             = inr design_data)
    (Hstep : get_tree_data (path working_directory tree_name) design_data ms
               overwrite
               (logged INFO (task_label benchmark benchmark_item
                             +:+ ": started") w)
             = (inr (tree_data, recomputed, elapsed), w2)) :
  run working_directory benchmark benchmark_item overwrite timeout w
  = (inr None,
     logged ERROR (task_label benchmark benchmark_item
                   +:+ ": failed: 'entropy'") w2)
  ∧ is_file w2 (path working_directory tree_name) = true.
Proof.
  split; [|by eapply get_tree_data_is_file].
  rewrite run_eq. unfold run_body.
  rewrite Hfiles. cbn [getitem]. rewrite !bind_ret_l.
  rewrite Hdesign. cbn [getitem]. rewrite bind_ret_l.
  assert (Hd : is_file w (path working_directory design_name) = true).
  { unfold is_file, read_text in *. by repeat case_match. }
  unfold_monad. rewrite is_file_logged, Hd. simpl. rewrite Hread.
  rewrite Htree, Hms. simpl. rewrite Hstep. by rewrite Hentropy.
Qed.

(** *** What a successful task leaves behind *)


(** X14. A successful [run] reads the timer four times, twice around
    each cache step: the two durations of the row are differences of
    consecutive readings, the design being read before the first one; so
    they are not negative when the timer does not go back. *)
Theorem run_durations (working_directory : PurePath)
    (benchmark : string) (benchmark_item : benchmark_item) (overwrite : bool)
    (timeout : Z) (w w' : world) (r : row)
    (Hrun : run working_directory benchmark benchmark_item overwrite timeout w
            = (inr (Some r), w')) :
  clock w' = (4 + clock w)%nat
  ∧ tree_time r = default_timer (1 + clock w) - default_timer (clock w)
  ∧ entropy_time r
    = default_timer (3 + clock w) - default_timer (2 + clock w)
  ∧ ((∀ n, default_timer n ≤ default_timer (S n)) →
     0 ≤ tree_time r ∧ 0 ≤ entropy_time r).
Proof.
  apply run_Some, run_body_inr in Hrun
    as (fl & dn & tn & en & ms & dd & td & t_over & t_time & e_over
        & e_time & w2 & w3 & _ & _ & _ & _ & _ & _ & Hg & He & -> & [= ->]).
  apply get_tree_data_inr in Hg as (_ & -> & Hg).
  apply generate_entropy_data_spec in He as (_ & -> & He).
  assert (clock w2 = (2 + clock w)%nat) as Hc2.
  { destruct t_over; [destruct Hg as (? & ? & _ & _ & _ & _ & ->)
                     |destruct Hg as (? & _ & _ & ->)]; done. }
  assert (clock w3 = (2 + clock w2)%nat) as Hc3.
  { destruct e_over; [destruct He as (? & ? & ? & _ & _ & _ & _ & ->)
                     |subst w3]; done. }
  cbn [tree_time entropy_time clock logged]. rewrite Hc3, Hc2.
  split_and!; try done.
  intros Hmono. split.
  - specialize (Hmono (clock w)). simpl. lia.
  - specialize (Hmono (2 + clock w)%nat). simpl in *. lia.
Qed.


End RunnerEffects.

Lemma run_design_not_found_witness :
  is_file Demo.w0 (@path Demo.root "z.v") = false
  ∧ @run Demo.toy Demo.ticks Demo.root "B" Demo.item_z false 0 Demo.w0
    = (inr None,
       mkWorld (fs Demo.w0) 0
         [(INFO, "'z' from 'B': started");
          (ERROR, "'z' from 'B': failed: 'z' from 'B': design not found")]).
Proof.
  split; [reflexivity|].
  exact (@run_design_not_found Demo.toy Demo.ticks Demo.root "B" Demo.item_z
           false 0 Demo.w0 _ "z.v" eq_refl eq_refl eq_refl).
Defined.

Lemma run_missing_key_witness :
  files Demo.item_bare = None
  ∧ @run Demo.toy Demo.ticks Demo.root "A" Demo.item_bare false 0 Demo.w0
    = (inr None,
       mkWorld (fs Demo.w0) 0
         [(INFO, "'bare' from 'A': started");
          (ERROR, "'bare' from 'A': failed: 'files'")]).
Proof.
  split; [reflexivity|].
  exact (@run_missing_key Demo.toy Demo.ticks Demo.root "A" Demo.item_bare
           false 0 Demo.w0 "files" eq_refl).
Defined.

Lemma run_missing_entropy_key_witness :
  let r := @run Demo.toy Demo.ticks Demo.root "A" Demo.item_sparse false 0
             Demo.w0 in
  f_entropy (mkFiles (Some "x.v") (Some "out/sparse.tree") None) = None
  ∧ r.1 = inr None
  ∧ log r.2 = [(INFO, "'sparse' from 'A': started");
               (ERROR, "'sparse' from 'A': failed: 'entropy'")]
  ∧ is_file r.2 (mkPath true ["bench"; "out"; "sparse.tree"]) = true.
Proof.
  intros r. split; [reflexivity|].
  pose proof (@run_missing_entropy_key Demo.toy Demo.ticks Demo.root "A"
    Demo.item_sparse false 0 Demo.w0
    (@get_tree_data Demo.toy Demo.ticks
       (mkPath true ["bench"; "out"; "sparse.tree"]) "module x" true false
       (logged INFO "'sparse' from 'A': started" Demo.w0)).2
    _ "x.v" "out/sparse.tree" true "module x" "module x" true 10
    eq_refl eq_refl eq_refl eq_refl eq_refl eq_refl eq_refl) as [H1 H2].
  unfold r. rewrite H1. split; [reflexivity|]. split; [reflexivity|].
  reflexivity.
Defined.


Lemma run_durations_witness :
  let out := @run Demo.toy Demo.ticks Demo.root "A" Demo.item_x false 0
               Demo.w0 in
  out.1 = inr (Some ("A", "x", true, 10, true, 10))
  ∧ (∀ n, @default_timer Demo.ticks n ≤ @default_timer Demo.ticks (S n))
  ∧ clock out.2 = 4%nat
  ∧ 0 ≤ 10.
Proof.
  intros out. split; [reflexivity|].
  assert (Hmono : ∀ n, @default_timer Demo.ticks n
                       ≤ @default_timer Demo.ticks (S n))
    by (intros n; simpl; lia).
  split; [exact Hmono|].
  pose proof (@run_durations Demo.toy Demo.ticks Demo.root "A" Demo.item_x
    false 0 Demo.w0 out.2 ("A", "x", true, 10, true, 10) eq_refl)
    as (Hc & _ & _ & Hpos).
  split; [exact Hc|]. exact (proj1 (Hpos Hmono)).
Defined.

(** ** What the driver does to the world *)

Section DriverEffects.
Context `{L : Landauer} `{T : Timer}.









End DriverEffects.


